(** * MouseWalk (Linux): the bounce selector, the animation loop and the idle monitor

    A shallow embedding of [main_linux.py].  Python floats are idealised as
    real numbers (finite values, exact arithmetic); Python ints are [Z].
    The program rounds every float operation to the nearest double, so a
    property that turns on a comparison is stated away from the boundary of
    that comparison, with a margin that rounding cannot bridge, or at inputs
    on which the float computation is exact.
    The pseudo-random module, the clock and the X11 adapter are external to
    the program: they are modelled as oracles that the program consumes in
    order. *)

From Stdlib Require Import Reals Lra Lia ZArith List Bool.
From Stdlib Require String.
Import String.StringSyntax.
Delimit Scope string_scope with string.
Import ListNotations.
Local Open Scope R_scope.

(** ** Float comparisons and the numeric built-ins the program uses *)

Definition fgt (x y : R) : bool := if Rlt_dec y x then true else false.
Definition flt (x y : R) : bool := if Rlt_dec x y then true else false.
Definition fle (x y : R) : bool := if Rle_dec x y then true else false.
Definition fge (x y : R) : bool := if Rle_dec y x then true else false.
Definition fne (x y : R) : bool := if Req_dec_T x y then false else true.

(** [max(a, b)] keeps its first argument unless the second is strictly larger;
    [min(a, b)] keeps it unless the second is strictly smaller. *)
Definition py_max (a b : R) : R := if fgt b a then b else a.
Definition py_min (a b : R) : R := if flt b a then b else a.

(** [math.hypot], as the real number of which the program has the nearest
    double. *)
Definition hypot (x y : R) : R := sqrt (x * x + y * y).

(** [round(x)] on a float: nearest integer, ties to the even one. *)
Definition py_round (x : R) : Z :=
  let f := Zfloor x in
  let d := x - IZR f in
  if flt d (1 / 2) then f
  else if fgt d (1 / 2) then (f + 1)%Z
  else if Z.even f then f else (f + 1)%Z.

(** [def clamp(value, min_value, max_value)]. *)
Definition clamp (value min_value max_value : R) : R :=
  py_max min_value (py_min value max_value).

(** ** The pseudo-random source

    [random] is a module-global generator.  Its state is a position in a
    stream of raw draws; [randbelow], [choice], [shuffle] and [uniform] follow
    the library's documented algorithms on top of it. *)

Record Rng : Type := mkRng {
  draws : nat -> nat;
  units : nat -> R;
  cursor : nat
}.

Definition advance (g : Rng) : Rng := mkRng (draws g) (units g) (S (cursor g)).

Definition randbelow (n : nat) (g : Rng) : nat * Rng :=
  (Nat.modulo (draws g (cursor g)) n, advance g).

Definition choice (xs : list R) (g : Rng) : R * Rng :=
  let '(i, g') := randbelow (length xs) g in (nth i xs 0, g').

Fixpoint set_nth (xs : list R) (i : nat) (v : R) : list R :=
  match xs, i with
  | [], _ => []
  | _ :: t, O => v :: t
  | h :: t, S i' => h :: set_nth t i' v
  end.

Definition swap (xs : list R) (i j : nat) : list R :=
  set_nth (set_nth xs i (nth j xs 0)) j (nth i xs 0).

(** [for i in reversed(range(1, len(x))): j = randbelow(i + 1); swap]. *)
Fixpoint shuffle_from (i : nat) (xs : list R) (g : Rng) : list R * Rng :=
  match i with
  | O => (xs, g)
  | S i' => let '(j, g') := randbelow (S i) g in shuffle_from i' (swap xs i j) g'
  end.

Definition shuffle (xs : list R) (g : Rng) : list R * Rng :=
  shuffle_from (length xs - 1) xs g.

Definition uniform (a b : R) (g : Rng) : R * Rng :=
  (a + (b - a) * units g (cursor g), advance g).

(** ** pick_diagonal_velocity *)

Definition eps_speed : R := 1 / 1000000.

Definition signf (v : R) : R := if fge v 0 then 1 else -1.

(** [1.0 if hit_lo else (-1.0 if hit_hi else None)]. *)
Definition wall_sign (hit_lo hit_hi : bool) : option R :=
  if hit_lo then Some 1 else if hit_hi then Some (-1) else None.

(** The handedness of the previous velocity, when it is near-diagonal. *)
Definition prev_handedness (prev_vx prev_vy : R) : option R :=
  let prev_speed := hypot prev_vx prev_vy in
  if fgt prev_speed eps_speed
     && fle (Rabs (Rabs prev_vx - Rabs prev_vy)) (py_max 1 (5 / 100 * prev_speed))
  then Some (signf prev_vy / signf prev_vx)
  else None.

(** The candidate list of one round. *)
Definition round_candidates (s_prev : option R) (g : Rng) : list R * Rng :=
  match s_prev with
  | Some sp => (filter (fun x => fne x sp) [1; -1] ++ [sp], g)
  | None => shuffle [1; -1] g
  end.

Section Search.
(** The names the nested loops of the function close over. *)
Variables (comp : R) (hit_left hit_right hit_top hit_bottom : bool).
Variables (prev_vx prev_vy prev_speed : R).

(** The sign pair a candidate handedness [s] proposes; [None] is the first
    [continue] (corner whose forced signs have another handedness). *)
Definition propose (s : R) (g : Rng) : option (R * R) * Rng :=
  match wall_sign hit_left hit_right, wall_sign hit_top hit_bottom with
  | None, None =>
      let '(hx_try, g') := choice [-1; 1] g in (Some (hx_try, s * hx_try), g')
  | None, Some hy => (Some (hy / s, hy), g)
  | Some hx, None => (Some (hx, s * hx), g)
  | Some hx, Some hy =>
      if fgt (Rabs (hy / hx - s)) (1 / 10) then (None, g) else (Some (hx, hy), g)
  end.

(** The quantity the code calls [cos_sim]. *)
Definition cos_sim (vx vy : R) : R :=
  (prev_vx * vx + prev_vy * vy) / (prev_speed * comp).

(** The anti-reversal test, the second [continue].  The comparison is the
    exact one; where [cos_sim] is within rounding distance of [-0.2] the
    program's answer may be the other one. *)
Definition reverses (vx vy : R) : bool :=
  fgt prev_speed eps_speed && fle (cos_sim vx vy) (- (2 / 10)).

(** One pass of the body of [for s in candidates]: [Some v] is [return v]. *)
Definition try_candidate (s : R) (g : Rng) : option (R * R) * Rng :=
  match propose s g with
  | (None, g') => (None, g')
  | (Some (hx_try, hy_try), g') =>
      let vx := hx_try * comp in
      let vy := hy_try * comp in
      if reverses vx vy then (None, g') else (Some (vx, vy), g')
  end.

Fixpoint for_candidates (cands : list R) (g : Rng) : option (R * R) * Rng :=
  match cands with
  | [] => (None, g)
  | s :: rest =>
      match try_candidate s g with
      | (Some v, g') => (Some v, g')
      | (None, g') => for_candidates rest g'
      end
  end.

(** [for _ in range(n)]. *)
Fixpoint search_rounds (n : nat) (s_prev : option R) (g : Rng)
  : option (R * R) * Rng :=
  match n with
  | O => (None, g)
  | S n' =>
      let '(cands, g1) := round_candidates s_prev g in
      match for_candidates cands g1 with
      | (Some v, g2) => (Some v, g2)
      | (None, g2) => search_rounds n' s_prev g2
      end
  end.

(** The code after the loop. *)
Definition fallback (g : Rng) : (R * R) * Rng :=
  let '(hx, g1) :=
    if hit_left then (1, g) else if hit_right then (-1, g) else choice [-1; 1] g in
  let '(hy, g2) :=
    if hit_top then (1, g1) else if hit_bottom then (-1, g1) else choice [-1; 1] g1 in
  ((hx * comp, hy * comp), g2).
End Search.

Definition comp_of (speed_mag : R) : R := py_max 1 speed_mag / sqrt 2.

Definition search (speed_mag : R) (hit_left hit_right hit_top hit_bottom : bool)
    (prev_vx prev_vy : R) (g : Rng) : option (R * R) * Rng :=
  search_rounds (comp_of speed_mag) hit_left hit_right hit_top hit_bottom
    prev_vx prev_vy (hypot prev_vx prev_vy) 16
    (prev_handedness prev_vx prev_vy) g.

Definition pick_diagonal_velocity (speed_mag : R)
    (hit_left hit_right hit_top hit_bottom : bool)
    (prev_vx prev_vy : R) (g : Rng) : (R * R) * Rng :=
  match search speed_mag hit_left hit_right hit_top hit_bottom prev_vx prev_vy g with
  | (Some v, g') => (v, g')
  | (None, g') =>
      fallback (comp_of speed_mag) hit_left hit_right hit_top hit_bottom g'
  end.

(** ** The adapter, the clock and the process as a state-and-error monad

    The X11 session, [time] and the interpreter are outside the program.  A
    [World] holds what they answer, call by call ([tick] counts the calls),
    and records what the program did to them as a [trace], newest event
    first. *)

Inductive exn : Type :=
| SystemExit (code : Z)
| KeyboardInterrupt
| OSError
| XlibError
| AssertionError.

(** [except Exception] does not catch [SystemExit] or [KeyboardInterrupt]. *)
Definition is_Exception (e : exn) : bool :=
  match e with
  | SystemExit _ | KeyboardInterrupt => false
  | OSError | XlibError | AssertionError => true
  end.

Inductive event : Type :=
| EvOpen
| EvClose
| EvPrintArmed (threshold_seconds : Z)
| EvPrintExiting
| EvHotkey (pressed : bool)
| EvQueryIdle (ms : Z)
| EvQueryIdleFailed
| EvEnterSaver
| EvDefineCursor
| EvUndefineCursor (ok : bool)
| EvSetCursorPos (x y : Z)
| EvSleep (seconds : R).

Record World : Type := mkWorld {
  display_open : bool;
  can_open : bool;
  screen_width : Z;
  screen_height : Z;
  pointer : Z * Z;
  hotkey_at : nat -> bool;
  idle_at : nat -> option Z;
  clock_at : nat -> R;
  xfail_at : nat -> bool;
  interrupt_at : nat -> bool;
  tick : nat;
  rng : Rng;
  trace : list event
}.

Definition bump (w : World) : World :=
  mkWorld (display_open w) (can_open w) (screen_width w) (screen_height w)
    (pointer w) (hotkey_at w) (idle_at w) (clock_at w) (xfail_at w)
    (interrupt_at w) (S (tick w)) (rng w) (trace w).

Definition log (e : event) (w : World) : World :=
  mkWorld (display_open w) (can_open w) (screen_width w) (screen_height w)
    (pointer w) (hotkey_at w) (idle_at w) (clock_at w) (xfail_at w)
    (interrupt_at w) (tick w) (rng w) (e :: trace w).

Definition set_display (b : bool) (w : World) : World :=
  mkWorld b (can_open w) (screen_width w) (screen_height w)
    (pointer w) (hotkey_at w) (idle_at w) (clock_at w) (xfail_at w)
    (interrupt_at w) (tick w) (rng w) (trace w).

Definition set_pointer (p : Z * Z) (w : World) : World :=
  mkWorld (display_open w) (can_open w) (screen_width w) (screen_height w)
    p (hotkey_at w) (idle_at w) (clock_at w) (xfail_at w)
    (interrupt_at w) (tick w) (rng w) (trace w).

Definition set_rng (g : Rng) (w : World) : World :=
  mkWorld (display_open w) (can_open w) (screen_width w) (screen_height w)
    (pointer w) (hotkey_at w) (idle_at w) (clock_at w) (xfail_at w)
    (interrupt_at w) (tick w) g (trace w).

(** [Running]: the loop has not left yet when the observation stops. *)
Inductive outcome (A : Type) : Type :=
| Done (a : A)
| Raised (e : exn)
| Running.
Arguments Done {A} a.
Arguments Raised {A} e.
Arguments Running {A}.

Definition M (A : Type) : Type := World -> outcome A * World.

Definition ret {A} (a : A) : M A := fun w => (Done a, w).
Definition raise {A} (e : exn) : M A := fun w => (Raised e, w).
Definition running {A} : M A := fun w => (Running, w).

Definition bind {A B} (c : M A) (k : A -> M B) : M B := fun w =>
  match c w with
  | (Done a, w1) => k a w1
  | (Raised e, w1) => (Raised e, w1)
  | (Running, w1) => (Running, w1)
  end.

Notation "x <- c ;; k" := (bind c (fun x => k))
  (at level 61, c at next level, right associativity).
Notation "c ;;; k" := (bind c (fun _ => k))
  (at level 61, right associativity).

(** [try: body finally: fin].  An exception of [fin] replaces the pending
    result of [body]; while [body] is still running, [fin] has not run. *)
Definition try_finally {A} (body : M A) (fin : M unit) : M A := fun w =>
  match body w with
  | (Running, w1) => (Running, w1)
  | (r, w1) =>
      match fin w1 with
      | (Done _, w2) => (r, w2)
      | (Raised e, w2) => (Raised e, w2)
      | (Running, w2) => (Running, w2)
      end
  end.

(** [try: body except <handles>: handler]. *)
Definition try_except {A} (body : M A) (handles : exn -> bool) (handler : M A)
  : M A := fun w =>
  match body w with
  | (Raised e, w1) => if handles e then handler w1 else (Raised e, w1)
  | r => r
  end.

Definition emit (e : event) : M unit := fun w => (Done tt, log e w).

Definition assert_display : M unit := fun w =>
  if display_open w then (Done tt, w) else (Raised AssertionError, w).

Definition lift_rng {A} (f : Rng -> A * Rng) : M A := fun w =>
  (Done (fst (f (rng w))), set_rng (snd (f (rng w))) w).

Definition sys_exit {A} (code : Z) : M A := raise (SystemExit code).

(** [time.perf_counter()] and [time.sleep(s)]; an interrupt signal is
    delivered while the process sleeps. *)
Definition perf_counter : M R := fun w => (Done (clock_at w (tick w)), bump w).

Definition sleep (seconds : R) : M unit := fun w =>
  if interrupt_at w (tick w)
  then (Raised KeyboardInterrupt, log (EvSleep seconds) (bump w))
  else (Done tt, log (EvSleep seconds) (bump w)).

(** *** class X11Context *)

(** One [libX11.XUndefineCursor] call.  [close] guards it with
    [except Exception], so it is a call that may raise. *)
Definition x_undefine_cursor : M unit := fun w =>
  if xfail_at w (tick w)
  then (Raised XlibError, log (EvUndefineCursor false) (bump w))
  else (Done tt, log (EvUndefineCursor true) (bump w)).

Definition xc_open : M unit := fun w =>
  if display_open w then (Done tt, w)
  else if can_open w then (Done tt, log EvOpen (set_display true w))
  else (Raised OSError, w).

Definition xc_close : M unit := fun w =>
  if negb (display_open w) then (Done tt, w)
  else
    (try_except x_undefine_cursor is_Exception (ret tt) ;;;
     emit EvClose ;;;
     (fun w1 => (Done tt, set_display false w1))) w.

Definition get_virtual_bounds : M (Z * Z) :=
  assert_display ;;; (fun w => (Done (screen_width w, screen_height w), w)).

Definition get_cursor_pos : M (Z * Z) :=
  assert_display ;;; (fun w => (Done (pointer w), w)).

Definition set_cursor_pos (x y : Z) : M unit :=
  assert_display ;;;
  (fun w => (Done tt, log (EvSetCursorPos x y) (set_pointer (x, y) w))).

Definition force_arrow_cursor : M unit :=
  assert_display ;;; emit EvDefineCursor.

Definition restore_cursor : M unit :=
  assert_display ;;; x_undefine_cursor.

Definition query_idle_ms : M Z :=
  assert_display ;;;
  (fun w =>
     match idle_at w (tick w) with
     | Some ms => (Done ms, log (EvQueryIdle ms) (bump w))
     | None => (Raised OSError, log EvQueryIdleFailed (bump w))
     end).

(** The pending X events are drained and scanned for a quit key; the world
    supplies the resulting flag. *)
Definition hotkey_quit_pressed : M bool :=
  assert_display ;;;
  (fun w => (Done (hotkey_at w (tick w)),
             log (EvHotkey (hotkey_at w (tick w))) (bump w))).

(** ** run_cursor_screensaver *)

Record Anim : Type := mkAnim {
  pos_x : R;
  pos_y : R;
  vel_x : R;
  vel_y : R;
  idle_prev_ms : Z;
  prev_t : R
}.

Record Bounds : Type := mkBounds {
  min_x : R;
  min_y : R;
  max_x : R;
  max_y : R
}.

Definition bounds_of (width height : Z) : Bounds :=
  mkBounds 0 0 (IZR (width - 1)) (IZR (height - 1)).

(** The four edge tests of a frame. *)
Record Hits : Type := mkHits {
  hit_left : bool;
  hit_right : bool;
  hit_top : bool;
  hit_bottom : bool
}.

Definition edge_hits (b : Bounds) (px py : R) : Hits :=
  mkHits (flt px (min_x b)) (fgt px (max_x b)) (flt py (min_y b)) (fgt py (max_y b)).

Definition any_hit (h : Hits) : bool :=
  hit_left h || hit_right h || hit_top h || hit_bottom h.

(** The position after the clamp and the one-pixel nudges. *)
Definition resolve_position (b : Bounds) (h : Hits) (px py : R) : R * R :=
  let px := clamp px (min_x b) (max_x b) in
  let py := clamp py (min_y b) (max_y b) in
  let px := if hit_left h then min_x b + 1 else px in
  let px := if hit_right h then max_x b - 1 else px in
  let py := if hit_top h then min_y b + 1 else py in
  let py := if hit_bottom h then max_y b - 1 else py in
  (px, py).

(** One edge-resolution pass on an integrated position: unchanged when no
    edge is hit. *)
Definition edge_pass (b : Bounds) (px py : R) : R * R :=
  let h := edge_hits b px py in
  if any_hit h then resolve_position b h px py else (px, py).

(** The body of [while True]: [None] is [break]. *)
Definition frame (b : Bounds) (frame_dt : R) (st : Anim) : M (option Anim) :=
  pressed <- hotkey_quit_pressed ;;
  if pressed : bool then sys_exit 0%Z else
  idle_ms <- query_idle_ms ;;
  if (idle_ms + 50 <? idle_prev_ms st)%Z then ret None else
  now <- perf_counter ;;
  let dt := py_max 0 (py_min (5 / 100) (now - prev_t st)) in
  let px := pos_x st + vel_x st * dt in
  let py := pos_y st + vel_y st * dt in
  let h := edge_hits b px py in
  moved <-
    (if any_hit h then
       let speed_mag := py_max 150 (hypot (vel_x st) (vel_y st)) in
       v <- lift_rng (pick_diagonal_velocity speed_mag
                        (hit_left h) (hit_right h) (hit_top h) (hit_bottom h)
                        (vel_x st) (vel_y st)) ;;
       ret (resolve_position b h px py, v)
     else ret ((px, py), (vel_x st, vel_y st))) ;;
  let p := fst moved in
  let v := snd moved in
  set_cursor_pos (py_round (fst p)) (py_round (snd p)) ;;;
  sleep frame_dt ;;;
  ret (Some (mkAnim (fst p) (snd p) (fst v) (snd v) idle_ms now)).

Fixpoint animate (fuel : nat) (b : Bounds) (frame_dt : R) (st : Anim) : M unit :=
  match fuel with
  | O => running
  | S fuel' =>
      r <- frame b frame_dt st ;;
      match r with
      | None => ret tt
      | Some st' => animate fuel' b frame_dt st'
      end
  end.

(** The [try: while True: ... finally: xc.restore_cursor()] statement. *)
Definition guarded_animation (fuel : nat) (b : Bounds) (frame_dt : R) (st : Anim)
  : M unit :=
  try_finally (animate fuel b frame_dt st) restore_cursor.

(** The statements of [run_cursor_screensaver]. *)
Definition saver_body (fuel : nat) (animation_fps : R) : M unit :=
  idle_prev <- query_idle_ms ;;
  dims <- get_virtual_bounds ;;
  let b := bounds_of (fst dims) (snd dims) in
  start <- get_cursor_pos ;;
  force_arrow_cursor ;;;
  speed <- lift_rng (uniform 300 700) ;;
  v <- lift_rng (pick_diagonal_velocity speed false false false false 0 0) ;;
  let frame_dt := 1 / py_max 30 animation_fps in
  t0 <- perf_counter ;;
  guarded_animation fuel b frame_dt
    (mkAnim (IZR (fst start)) (IZR (snd start)) (fst v) (snd v) idle_prev t0).

(** A call of [run_cursor_screensaver]: the entry is recorded in the trace. *)
Definition run_cursor_screensaver (fuel : nat) (animation_fps : R) : M unit :=
  emit EvEnterSaver ;;; saver_body fuel animation_fps.

(** ** monitor_idle_and_run and main *)

Definition get_idle_seconds : M R :=
  ms <- query_idle_ms ;; ret (IZR ms / 1000).

(** The body of the monitor's [while True]. *)
Definition monitor_iteration (fuel : nat) (threshold_seconds : Z) : M unit :=
  pressed <- hotkey_quit_pressed ;;
  if pressed : bool then sys_exit 0%Z else
  idle_s <- get_idle_seconds ;;
  if fge idle_s (IZR threshold_seconds)
  then run_cursor_screensaver fuel 120 ;;; sleep (25 / 100)
  else sleep 1.

Fixpoint monitor_loop (fuel : nat) (threshold_seconds : Z) : M unit :=
  match fuel with
  | O => running
  | S fuel' =>
      monitor_iteration fuel' threshold_seconds ;;;
      monitor_loop fuel' threshold_seconds
  end.

Definition is_KeyboardInterrupt (e : exn) : bool :=
  match e with KeyboardInterrupt => true | _ => false end.

(** [EvPrintArmed] stands for the two banner lines printed before the loop. *)
Definition monitor_idle_and_run (fuel : nat) (threshold_seconds : Z) : M unit :=
  emit (EvPrintArmed threshold_seconds) ;;;
  try_except (monitor_loop fuel threshold_seconds)
    is_KeyboardInterrupt (emit EvPrintExiting).

(** [int(x)] on a float truncates toward zero. *)
Definition py_int (x : R) : Z :=
  if fge x 0 then Zfloor x else (- Zfloor (- x))%Z.

(** [main], after [parse_args] has produced a finite [args.minutes].  The
    product is the exact one; the program truncates its nearest double. *)
Definition main (fuel : nat) (minutes : R) : M Z :=
  xc_open ;;;
  try_finally
    (let threshold_seconds := Z.max 1 (py_int (minutes * 60)) in
     run_cursor_screensaver fuel 120 ;;;
     monitor_idle_and_run fuel threshold_seconds ;;;
     ret 0%Z)
    xc_close.

(** ** _load_library

    [ctypes.util.find_library] and [ctypes.CDLL] belong to the platform: the
    first maps a library name to a path or to [None], the second loads a path
    or raises OSError ([None]). *)

Section LoadLibrary.
Variable find_library : String.string -> option String.string.
Variable cdll : String.string -> option nat.

(** [ctypes.util.find_library(name) or name]: an empty path counts as
    missing. *)
Definition library_path (name : String.string) : String.string :=
  match find_library name with
  | Some path => if String.eqb path String.EmptyString then name else path
  | None => name
  end.

Fixpoint _load_library (names : list String.string) : outcome nat :=
  match names with
  | [] => Raised OSError
  | name :: rest =>
      match cdll (library_path name) with
      | Some lib => Done lib
      | None => _load_library rest
      end
  end.
End LoadLibrary.

(** ** The quit keys of X11Context

    [quit_keycodes] is a Python set of ints: a list without repetitions. *)

Definition set_add (k : Z) (s : list Z) : list Z :=
  if existsb (Z.eqb k) s then s else s ++ [k].

Section QuitKeys.
Variable XStringToKeysym : String.string -> Z.
Variable XKeysymToKeycode : Z -> Z.

(** The loop [for name in (b"q", b"Cyrillic_shorti")] of [open], started on
    the set [acc]. *)
Fixpoint add_quit_keycodes (names : list String.string) (acc : list Z) : list Z :=
  match names with
  | [] => acc
  | name :: rest =>
      let keysym := XStringToKeysym name in
      add_quit_keycodes rest
        (if (keysym =? 0)%Z then acc
         else
           let keycode := XKeysymToKeycode keysym in
           if (keycode =? 0)%Z then acc else set_add keycode acc)
  end.

Definition quit_key_names : list String.string :=
  ["q"%string; "Cyrillic_shorti"%string].

(** [self.quit_keycodes] after [open] on a fresh context. *)
Definition quit_keycodes : list Z := add_quit_keycodes quit_key_names [].
End QuitKeys.

(** An X event as the program reads it: its type and, for a key event, the
    keycode. *)
Record XEvent : Type := mkXEvent {
  ev_type : Z;
  ev_keycode : Z
}.

Definition KeyPress : Z := 2.

(** The loop [while libX11.XPending(self.display) > 0] of
    [hotkey_quit_pressed] over the queue of pending events: the flag and the
    queue it leaves. *)
Fixpoint scan_pending (quit : list Z) (pending : list XEvent) (pressed : bool)
  : bool * list XEvent :=
  match pending with
  | [] => (pressed, [])
  | ev :: rest =>
      scan_pending quit rest
        (if (ev_type ev =? KeyPress)%Z
         then if existsb (Z.eqb (ev_keycode ev)) quit then true else pressed
         else pressed)
  end.

Definition pending_quit (quit : list Z) (pending : list XEvent)
  : bool * list XEvent :=
  scan_pending quit pending false.

(** * Specification vocabulary *)

(** ** The selector *)

(** The two values a sign variable of the selector takes. *)
Definition is_sign (a : R) : Prop := a = 1 \/ a = -1.

(** [forced hit_lo hit_hi a]: [a] is the sign the walls of one axis leave. *)
Definition forced (hit_lo hit_hi : bool) (a : R) : Prop :=
  match wall_sign hit_lo hit_hi with
  | Some x => a = x
  | None => is_sign a
  end.

(** A vector whose components are wall-compatible signs times [comp]. *)
Definition away_from_walls (comp : R) (hl hr ht hb : bool) (v : R * R) : Prop :=
  exists a b, v = (a * comp, b * comp) /\ forced hl hr a /\ forced ht hb b.

(** What every vector returned from inside the loop satisfies. *)
Definition accepted (comp : R) (hl hr ht hb : bool) (pvx pvy ps : R)
    (v : R * R) : Prop :=
  away_from_walls comp hl hr ht hb v
  /\ reverses comp pvx pvy ps (fst v) (snd v) = false.

(** [spent g g' k]: from [g] to [g'] at most [k] draws were taken. *)
Definition spent (g g' : Rng) (k : nat) : Prop :=
  (cursor g <= cursor g' <= cursor g + k)%nat.


(** A previous velocity that passes the near-diagonal test of the selector
    with room to spare: its components have equal magnitude (above the speed
    threshold), or its magnitude is at least 10 and the component magnitudes
    differ by at most 1 or by at most 4% of the magnitude.  The candidate of
    the opposite handedness then has a [cos_sim] within 1/10 of zero, clear
    of the threshold [-0.2]. *)
Definition clearly_diagonal (pvx pvy : R) : Prop :=
  (Rabs pvx = Rabs pvy /\ eps_speed < Rabs pvx)
  \/ (10 <= hypot pvx pvy
      /\ (Rabs (Rabs pvx - Rabs pvy) <= 1
          \/ Rabs (Rabs pvx - Rabs pvy) <= 4 / 100 * hypot pvx pvy)).

(** A random source that always draws 0. *)
Definition rng0 : Rng := mkRng (fun _ => 0%nat) (fun _ => 0) 0.



(** ** Traces *)

(** Events that are neither the entry of the animation nor a pointer write. *)
Definition benign (e : event) : Prop :=
  match e with
  | EvEnterSaver | EvSetCursorPos _ _ => False
  | _ => True
  end.

(** What a frame of the animation may do with bounds [b]: a benign event, or
    a pointer write at the rounded result of an edge-resolution pass. *)
Definition frame_event (b : Bounds) (e : event) : Prop :=
  benign e
  \/ exists px py,
       e = EvSetCursorPos (py_round (fst (edge_pass b px py)))
             (py_round (snd (edge_pass b px py))).

Definition calm (e : event) : Prop := e <> EvEnterSaver.

(** A pointer write inside [0, width-1] x [0, height-1]. *)
Definition within_screen (width height : Z) (e : event) : Prop :=
  match e with
  | EvSetCursorPos x y => (0 <= x <= width - 1 /\ 0 <= y <= height - 1)%Z
  | _ => True
  end.

(** [saver_guarded thr tr]: in the trace [tr] (newest event first) every
    entry of the animation comes directly after an idle query whose answer,
    in seconds, is at least [thr]. *)
Fixpoint saver_guarded (thr : Z) (tr : list event) : Prop :=
  match tr with
  | [] => True
  | EvEnterSaver :: older =>
      match older with
      | EvQueryIdle ms :: _ => IZR thr <= IZR ms / 1000
      | _ => False
      end /\ saver_guarded thr older
  | _ :: older => saver_guarded thr older
  end.

(** [evolves P w w']: the session and the screen are the same in [w'] as in
    [w], and the trace grew by events that satisfy [P]. *)
Definition evolves (P : event -> Prop) (w w' : World) : Prop :=
  display_open w' = display_open w
  /\ screen_width w' = screen_width w
  /\ screen_height w' = screen_height w
  /\ exists evs, trace w' = evs ++ trace w /\ Forall P evs.

(** [triple width height P c Q]: run on a screen of that size, [c] only adds
    events satisfying [P], and a value it returns satisfies [Q]. *)
Definition triple (width height : Z) {A : Type} (P : event -> Prop) (c : M A)
    (Q : A -> Prop) : Prop :=
  forall w out w',
    screen_width w = width -> screen_height w = height ->
    c w = (out, w') ->
    evolves P w w' /\ (forall a, out = Done a -> Q a).

(** ** Concrete worlds *)

(** A 1920x1080 session in which the quit hotkey is always reported pressed
    and every idle query answers 0 ms. *)
Definition world_quit : World :=
  mkWorld true true 1920 1080 (10, 10)%Z (fun _ => true) (fun _ => Some 0%Z)
    (fun _ => 0) (fun _ => false) (fun _ => false) 0
    (mkRng (fun _ => 0%nat) (fun _ => 0) 0) [].

(** The same session before [xc.open()]. *)
Definition world_closed : World := set_display false world_quit.

(** The same session with an X server on which [XUndefineCursor] raises. *)
Definition world_xfail : World :=
  mkWorld true true 1920 1080 (10, 10)%Z (fun _ => true) (fun _ => Some 0%Z)
    (fun _ => 0) (fun _ => true) (fun _ => false) 0
    (mkRng (fun _ => 0%nat) (fun _ => 0) 0) [].

(** A session in which no key is pressed and the idle time stays at 0 ms. *)
Definition world_busy : World :=
  mkWorld true true 1920 1080 (10, 10)%Z (fun _ => false) (fun _ => Some 0%Z)
    (fun _ => 0) (fun _ => false) (fun _ => false) 0
    (mkRng (fun _ => 0%nat) (fun _ => 0) 0) [].

(** A session in which no key is pressed and the idle time is 700 s. *)
Definition world_idle : World :=
  mkWorld true true 1920 1080 (10, 10)%Z (fun _ => false)
    (fun _ => Some 700000%Z) (fun _ => 0) (fun _ => false) (fun _ => false) 0
    (mkRng (fun _ => 0%nat) (fun _ => 0) 0) [].

(** * Properties *)

(** ** Float comparisons *)

Ltac float_cases :=
  unfold py_max, py_min, fgt, flt, fle, fge, fne in *;
  repeat match goal with
    | |- context [Rlt_dec ?a ?b] => destruct (Rlt_dec a b)
    | |- context [Rle_dec ?a ?b] => destruct (Rle_dec a b)
    | |- context [Req_dec_T ?a ?b] => destruct (Req_dec_T a b)
    | H : context [Rlt_dec ?a ?b] |- _ => destruct (Rlt_dec a b)
    | H : context [Rle_dec ?a ?b] |- _ => destruct (Rle_dec a b)
    | H : context [Req_dec_T ?a ?b] |- _ => destruct (Req_dec_T a b)
    end.

Lemma fgt_spec (x y : R) : fgt x y = true <-> y < x.
Proof. float_cases; split; intros; try lra; congruence. Qed.

Lemma flt_spec (x y : R) : flt x y = true <-> x < y.
Proof. float_cases; split; intros; try lra; congruence. Qed.

Lemma fle_spec (x y : R) : fle x y = true <-> x <= y.
Proof. float_cases; split; intros; try lra; congruence. Qed.

Lemma fge_spec (x y : R) : fge x y = true <-> y <= x.
Proof. float_cases; split; intros; try lra; congruence. Qed.

Lemma fgt_false (x y : R) : fgt x y = false <-> x <= y.
Proof. float_cases; split; intros; try lra; congruence. Qed.

Lemma flt_false (x y : R) : flt x y = false <-> y <= x.
Proof. float_cases; split; intros; try lra; congruence. Qed.

Lemma fle_false (x y : R) : fle x y = false <-> y < x.
Proof. float_cases; split; intros; try lra; congruence. Qed.

Lemma py_max_Rmax (a b : R) : py_max a b = Rmax a b.
Proof. unfold Rmax; float_cases; lra. Qed.

Lemma py_min_Rmin (a b : R) : py_min a b = Rmin a b.
Proof. unfold Rmin; float_cases; lra. Qed.

Lemma py_max_lower (a b : R) : a <= py_max a b /\ b <= py_max a b.
Proof. float_cases; lra. Qed.

Lemma clamp_within (v lo hi : R) : lo <= hi -> lo <= clamp v lo hi <= hi.
Proof. unfold clamp; intros; float_cases; lra. Qed.

Lemma sqrt2_pos : 0 < sqrt 2.
Proof. apply sqrt_lt_R0; lra. Qed.

Lemma sqrt2_gt_1 : 1 < sqrt 2.
Proof. rewrite <- sqrt_1 at 1. apply sqrt_lt_1; lra. Qed.

Lemma comp_of_pos (speed_mag : R) : 0 < comp_of speed_mag.
Proof.
  unfold comp_of. apply Rdiv_lt_0_compat; [|apply sqrt2_pos].
  destruct (py_max_lower 1 speed_mag); lra.
Qed.

Lemma hypot_nonneg (x y : R) : 0 <= hypot x y.
Proof. apply sqrt_pos. Qed.

Lemma hypot_sqr (x y : R) : hypot x y * hypot x y = x * x + y * y.
Proof. unfold hypot. apply sqrt_sqrt. nra. Qed.

Lemma hypot_diag (c : R) : 0 <= c -> hypot c c = c * sqrt 2.
Proof.
  intros Hc. unfold hypot.
  replace (c * c + c * c) with ((c * c) * 2) by ring.
  rewrite sqrt_mult by nra. now rewrite sqrt_square.
Qed.


Lemma hypot_ge_abs (x y : R) : Rabs x <= hypot x y /\ Rabs y <= hypot x y.
Proof.
  pose proof (hypot_nonneg x y) as H0. pose proof (hypot_sqr x y) as H2.
  split; unfold Rabs; destruct (Rcase_abs _); nra.
Qed.


(** ** Signs *)

Lemma signf_sign (v : R) : is_sign (signf v).
Proof. unfold is_sign, signf; float_cases; auto. Qed.

Lemma signf_scaled (a c : R) : is_sign a -> 0 < c -> signf (a * c) = a.
Proof. unfold signf; intros [->| ->] Hc; float_cases; lra. Qed.

Lemma sign_div (a b : R) : is_sign a -> is_sign b -> is_sign (a / b).
Proof.
  intros [->| ->] [->| ->]; [left|right|right|left]; field.
Qed.

Lemma sign_mul (a b : R) : is_sign a -> is_sign b -> is_sign (a * b).
Proof.
  intros [->| ->] [->| ->]; [left|right|right|left]; ring.
Qed.

Lemma sign_div_mul (a b : R) : is_sign b -> a / b = a * b.
Proof. intros [->| ->]; field. Qed.

Lemma sign_abs (a : R) : is_sign a -> Rabs a = 1.
Proof.
  intros [->| ->]; unfold Rabs; destruct (Rcase_abs _); lra.
Qed.

(** ** The pseudo-random source *)

Lemma choice_pm (g : Rng) :
  is_sign (fst (choice [-1; 1] g)) /\ snd (choice [-1; 1] g) = advance g.
Proof.
  unfold choice, randbelow. cbn [length fst snd]. split; [|reflexivity].
  pose proof (Nat.mod_upper_bound (draws g (cursor g)) 2 ltac:(lia)) as Hlt.
  destruct (draws g (cursor g) mod 2)%nat as [|[|k]]; cbn; [right|left|lia]; reflexivity.
Qed.

Lemma shuffle_pair (g : Rng) :
  (fst (shuffle [1; -1] g) = [1; -1] \/ fst (shuffle [1; -1] g) = [-1; 1])
  /\ snd (shuffle [1; -1] g) = advance g.
Proof.
  unfold shuffle. cbn [length Nat.sub shuffle_from]. unfold randbelow.
  split; [|reflexivity].
  pose proof (Nat.mod_upper_bound (draws g (cursor g)) 2 ltac:(lia)) as Hlt.
  destruct (draws g (cursor g) mod 2)%nat as [|[|k]]; cbn; [right|left|lia]; reflexivity.
Qed.

Lemma cursor_advance (g : Rng) : cursor (advance g) = S (cursor g).
Proof. reflexivity. Qed.

(** ** The search of pick_diagonal_velocity *)

Lemma forced_sign (lo hi : bool) (a : R) : forced lo hi a -> is_sign a.
Proof.
  unfold forced, wall_sign, is_sign. destruct lo, hi; intros; subst; auto.
Qed.

Lemma handedness_sign (pvx pvy sp : R) :
  prev_handedness pvx pvy = Some sp -> is_sign sp.
Proof.
  unfold prev_handedness. destruct (_ && _); [|discriminate].
  intros [= <-]. apply sign_div; apply signf_sign.
Qed.

Lemma round_candidates_some (sp : R) (g : Rng) :
  is_sign sp -> round_candidates (Some sp) g = ([- sp; sp], g).
Proof.
  intros [->| ->]; unfold round_candidates; cbn [filter]; float_cases;
    try lra; cbn; repeat f_equal; lra.
Qed.

Lemma round_candidates_signs (s_prev : option R) (g : Rng) :
  (forall sp, s_prev = Some sp -> is_sign sp) ->
  Forall is_sign (fst (round_candidates s_prev g)).
Proof.
  intros Hs. destruct s_prev as [sp|].
  - rewrite round_candidates_some by auto. cbn.
    destruct (Hs sp eq_refl) as [->| ->]; repeat constructor;
      unfold is_sign; lra.
  - cbn [round_candidates]. destruct (shuffle_pair g) as [[->| ->] _];
      repeat constructor; unfold is_sign; lra.
Qed.

Section SearchFacts.
Variables (comp : R) (hl hr ht hb : bool) (pvx pvy ps : R).

Lemma propose_shape (s : R) (g g' : Rng) (a b : R) :
  is_sign s ->
  propose hl hr ht hb s g = (Some (a, b), g') ->
  forced hl hr a /\ forced ht hb b.
Proof.
  intros Hs. unfold propose, forced.
  destruct (wall_sign hl hr) as [hx|] eqn:Ex;
    destruct (wall_sign ht hb) as [hy|] eqn:Ey.
  - destruct (fgt _ _); intros [= <- <- <-]; auto.
  - intros [= <- <- <-]. split; [reflexivity|].
    apply sign_mul; [assumption|].
    unfold wall_sign in Ex. destruct hl, hr; inversion Ex; unfold is_sign; auto.
  - intros [= <- <- <-]. split; [|reflexivity].
    apply sign_div; [|assumption].
    unfold wall_sign in Ey. destruct ht, hb; inversion Ey; unfold is_sign; auto.
  - destruct (choice_pm g) as [Hc Hg].
    destruct (choice [-1; 1] g) as [x g1]. cbn in Hc, Hg.
    intros [= <- <- <-]. split; [assumption|]. now apply sign_mul.
Qed.

Lemma try_candidate_accepts (s : R) (g g' : Rng) (v : R * R) :
  is_sign s ->
  try_candidate comp hl hr ht hb pvx pvy ps s g = (Some v, g') ->
  accepted comp hl hr ht hb pvx pvy ps v.
Proof.
  intros Hs. unfold try_candidate.
  destruct (propose hl hr ht hb s g) as [[[a b]|] g1] eqn:Ep; [|discriminate].
  destruct (reverses _ _ _ _ _ _) eqn:Er; [discriminate|].
  intros [= <- <-]. split; [|exact Er].
  exists a, b. split; [reflexivity|]. eapply propose_shape; eauto.
Qed.

Lemma for_candidates_accepts (cands : list R) (g g' : Rng) (v : R * R) :
  Forall is_sign cands ->
  for_candidates comp hl hr ht hb pvx pvy ps cands g = (Some v, g') ->
  accepted comp hl hr ht hb pvx pvy ps v.
Proof.
  intros Hall. revert g. induction Hall as [|s rest Hs _ IH]; intros g; cbn.
  - discriminate.
  - destruct (try_candidate _ _ _ _ _ _ _ _ s g) as [[w|] g1] eqn:Et.
    + intros [= <- <-]. eapply try_candidate_accepts; eauto.
    + apply IH.
Qed.

Lemma search_rounds_accepts (n : nat) (s_prev : option R) (g g' : Rng)
    (v : R * R) :
  (forall sp, s_prev = Some sp -> is_sign sp) ->
  search_rounds comp hl hr ht hb pvx pvy ps n s_prev g = (Some v, g') ->
  accepted comp hl hr ht hb pvx pvy ps v.
Proof.
  intros Hs. revert g. induction n as [|n IH]; intros g; cbn.
  - discriminate.
  - pose proof (round_candidates_signs s_prev g Hs) as Hall.
    destruct (round_candidates s_prev g) as [cands g1]. cbn in Hall.
    destruct (for_candidates _ _ _ _ _ _ _ _ cands g1) as [[w|] g2] eqn:Ef.
    + intros [= <- <-]. eapply for_candidates_accepts; eauto.
    + apply IH.
Qed.

Lemma fallback_shape (g : Rng) :
  away_from_walls comp hl hr ht hb (fst (fallback comp hl hr ht hb g)).
Proof.
  unfold fallback, away_from_walls, forced, wall_sign.
  destruct (choice_pm g) as [Hc1 _].
  destruct hl, hr, ht, hb;
    repeat match goal with
      | |- context [choice [-1; 1] ?h] =>
          let H := fresh "Hc" in
          destruct (choice_pm h) as [H _];
          destruct (choice [-1; 1] h); cbn in H
      end;
    cbn; eexists _, _; repeat split; auto.
Qed.
End SearchFacts.

Lemma pick_shape (speed_mag : R) (hl hr ht hb : bool) (pvx pvy : R) (g : Rng) :
  away_from_walls (comp_of speed_mag) hl hr ht hb
    (fst (pick_diagonal_velocity speed_mag hl hr ht hb pvx pvy g)).
Proof.
  unfold pick_diagonal_velocity, search.
  destruct (search_rounds _ _ _ _ _ _ _ _ _ _ g) as [[v|] g'] eqn:Es.
  - apply search_rounds_accepts in Es; [apply Es|apply handedness_sign].
  - apply fallback_shape.
Qed.

(** C2. For every speed magnitude, every combination of edge flags, every
    previous velocity and every state of the random source, both components of
    the returned velocity have absolute value [max(1, speed_mag) / sqrt(2)]. *)
Theorem pick_component_magnitude (speed_mag : R) (hl hr ht hb : bool)
    (pvx pvy : R) (g : Rng) :
  Rabs (fst (fst (pick_diagonal_velocity speed_mag hl hr ht hb pvx pvy g)))
    = py_max 1 speed_mag / sqrt 2
  /\ Rabs (snd (fst (pick_diagonal_velocity speed_mag hl hr ht hb pvx pvy g)))
    = py_max 1 speed_mag / sqrt 2.
Proof.
  destruct (pick_shape speed_mag hl hr ht hb pvx pvy g) as (a & b & -> & Ha & Hb).
  pose proof (comp_of_pos speed_mag) as Hc. fold (comp_of speed_mag).
  apply forced_sign in Ha, Hb. cbn [fst snd].
  rewrite !Rabs_mult, (Rabs_pos_eq (comp_of speed_mag)) by lra.
  rewrite (sign_abs a Ha), (sign_abs b Hb). split; ring.
Qed.

(** C3 (as amended). A hit on the left wall gives [vx > 0] and a hit on the
    top wall gives [vy > 0]; a hit on the right wall gives [vx < 0] when the
    left flag is not set too, and a hit on the bottom wall gives [vy < 0]
    when the top flag is not set too. *)
Theorem pick_leaves_walls (speed_mag : R) (hl hr ht hb : bool)
    (pvx pvy : R) (g : Rng) :
  let v := fst (pick_diagonal_velocity speed_mag hl hr ht hb pvx pvy g) in
  (hl = true -> 0 < fst v)
  /\ (hl = false -> hr = true -> fst v < 0)
  /\ (ht = true -> 0 < snd v)
  /\ (ht = false -> hb = true -> snd v < 0).
Proof.
  cbv zeta.
  destruct (pick_shape speed_mag hl hr ht hb pvx pvy g) as (a & b & -> & Ha & Hb).
  pose proof (comp_of_pos speed_mag) as Hc. cbn [fst snd].
  unfold forced, wall_sign in Ha, Hb.
  repeat split; intros; subst; nra.
Qed.

Lemma pick_leaves_walls_witness :
  0 < fst (fst (pick_diagonal_velocity 300 true false false true 0 0 rng0))
  /\ snd (fst (pick_diagonal_velocity 300 true false false true 0 0 rng0)) < 0.
Proof.
  pose proof (pick_leaves_walls 300 true false false true 0 0 rng0) as H.
  cbv zeta in H. destruct H as (H1 & _ & _ & H4).
  split; [apply H1 | apply H4]; reflexivity.
Defined.

(** C3 fails as stated: with the left and the right flag both set, the call
    has [hit_right = true] and does not return [vx < 0]. *)
Lemma pick_right_flag_overridden :
  ~ (fst (fst (pick_diagonal_velocity 300 true true false false 0 0 rng0)) < 0).
Proof.
  destruct (pick_shape 300 true true false false 0 0 rng0) as (a & b & -> & Ha & _).
  pose proof (comp_of_pos 300) as Hc. cbn [fst snd].
  unfold forced, wall_sign in Ha. subst a. lra.
Qed.

(** ** Corner hits *)

Lemma wall_sign_sign (lo hi : bool) (x : R) :
  wall_sign lo hi = Some x -> is_sign x.
Proof.
  unfold wall_sign, is_sign. destruct lo, hi; intros [= <-]; auto.
Qed.

Lemma sign_mismatch_far (s q : R) :
  is_sign s -> is_sign q -> s <> q -> 1 / 10 < Rabs (q - s).
Proof.
  intros [->| ->] [->| ->] Hne; try congruence;
    unfold Rabs; destruct (Rcase_abs _); lra.
Qed.

Section Corner.
Variables (comp : R) (hl hr ht hb : bool) (pvx pvy ps : R) (hx hy : R).
Hypothesis Hx : wall_sign hl hr = Some hx.
Hypothesis Hy : wall_sign ht hb = Some hy.

Lemma corner_mismatch_rejected (s : R) (g : Rng) :
  is_sign s -> s <> hy / hx ->
  try_candidate comp hl hr ht hb pvx pvy ps s g = (None, g).
Proof.
  intros Hs Hne. unfold try_candidate, propose. rewrite Hx, Hy.
  assert (Hfar : fgt (Rabs (hy / hx - s)) (1 / 10) = true).
  { apply fgt_spec, sign_mismatch_far; auto.
    apply sign_div; eapply wall_sign_sign; eauto. }
  now rewrite Hfar.
Qed.

End Corner.

(** C5. A hit on the left and on the top wall returns [vx > 0] and [vy > 0];
    and whenever both axes are constrained by a wall, a candidate handedness
    different from the handedness of the forced signs is skipped (nothing is
    drawn for it) and the loop goes on with the next candidate. *)
Theorem corner_hit_forces_both (speed_mag : R) (hl hr ht hb : bool)
    (pvx pvy : R) (g : Rng) :
  (hl = true -> ht = true ->
   0 < fst (fst (pick_diagonal_velocity speed_mag hl hr ht hb pvx pvy g))
   /\ 0 < snd (fst (pick_diagonal_velocity speed_mag hl hr ht hb pvx pvy g)))
  /\ (forall (hx hy s : R) (rest : list R),
         wall_sign hl hr = Some hx -> wall_sign ht hb = Some hy ->
         is_sign s -> s <> hy / hx ->
         try_candidate (comp_of speed_mag) hl hr ht hb pvx pvy (hypot pvx pvy) s g
           = (None, g)
         /\ for_candidates (comp_of speed_mag) hl hr ht hb pvx pvy (hypot pvx pvy)
              (s :: rest) g
            = for_candidates (comp_of speed_mag) hl hr ht hb pvx pvy
                (hypot pvx pvy) rest g).
Proof.
  split.
  - intros -> ->.
    destruct (pick_shape speed_mag true hr true hb pvx pvy g)
      as (a & b & -> & Ha & Hb).
    pose proof (comp_of_pos speed_mag) as Hc. cbn [fst snd].
    unfold forced, wall_sign in Ha, Hb. subst. lra.
  - intros hx hy s rest Hx Hy Hs Hne.
    pose proof (corner_mismatch_rejected (comp_of speed_mag) hl hr ht hb
                  pvx pvy (hypot pvx pvy) hx hy Hx Hy s g Hs Hne) as Hrej.
    split; [exact Hrej|]. cbn [for_candidates]. now rewrite Hrej.
Qed.

Lemma corner_hit_forces_both_witness :
  (0 < fst (fst (pick_diagonal_velocity 300 true false true false 100 100 rng0))
   /\ 0 < snd (fst (pick_diagonal_velocity 300 true false true false 100 100 rng0)))
  /\ for_candidates (comp_of 300) true false true false 100 100 (hypot 100 100)
       [-1; 1] rng0
     = for_candidates (comp_of 300) true false true false 100 100 (hypot 100 100)
         [1] rng0.
Proof.
  destruct (corner_hit_forces_both 300 true false true false 100 100 rng0)
    as [H1 H2].
  split; [apply H1; reflexivity|].
  apply (H2 1 1 (-1) [1]); try reflexivity.
  - right; reflexivity.
  - lra.
Defined.

(** C10. At a corner (one horizontal and one vertical wall hit) the result is
    the wall-forced signs times [max(1, speed_mag) / sqrt(2)]: it does not
    depend on the random source or on the previous velocity, and it is what
    the search returns when it returns and what the fallback returns. *)
Theorem corner_output_determined (speed_mag : R) (hl hr ht hb : bool) :
  xorb hl hr = true -> xorb ht hb = true ->
  let forced_v := ((if hl then 1 else -1) * (py_max 1 speed_mag / sqrt 2),
                   (if ht then 1 else -1) * (py_max 1 speed_mag / sqrt 2)) in
  (forall pvx pvy g,
      fst (pick_diagonal_velocity speed_mag hl hr ht hb pvx pvy g) = forced_v)
  /\ (forall pvx pvy g v g',
         search speed_mag hl hr ht hb pvx pvy g = (Some v, g') -> v = forced_v)
  /\ (forall g, fst (fallback (comp_of speed_mag) hl hr ht hb g) = forced_v)
  /\ (forall pvx pvy g pvx' pvy' g',
         fst (pick_diagonal_velocity speed_mag hl hr ht hb pvx pvy g)
         = fst (pick_diagonal_velocity speed_mag hl hr ht hb pvx' pvy' g')).
Proof.
  intros Hh Hv forced_v.
  assert (Hshape : forall v, away_from_walls (comp_of speed_mag) hl hr ht hb v ->
                             v = forced_v).
  { intros v (a & b & -> & Ha & Hb). unfold forced_v, comp_of.
    unfold forced, wall_sign in Ha, Hb.
    destruct hl, hr, ht, hb; try discriminate; subst; reflexivity. }
  assert (Hpick : forall pvx pvy g,
             fst (pick_diagonal_velocity speed_mag hl hr ht hb pvx pvy g) = forced_v)
    by (intros; apply Hshape, pick_shape).
  split; [|split; [|split]].
  - exact Hpick.
  - intros pvx pvy g v g' Hs. apply Hshape.
    unfold search in Hs. apply search_rounds_accepts in Hs; [apply Hs|].
    apply handedness_sign.
  - intros g. apply Hshape, fallback_shape.
  - intros. now rewrite !Hpick.
Qed.

Lemma corner_output_determined_witness :
  fst (pick_diagonal_velocity 300 false true true false 100 100 rng0)
  = fst (pick_diagonal_velocity 300 false true true false 0 (-5) (advance rng0)).
Proof.
  destruct (corner_output_determined 300 false true true false eq_refl eq_refl)
    as (_ & _ & _ & H).
  apply H.
Defined.

(** ** How much of the random stream one call consumes *)

Lemma spent_refl (g : Rng) (k : nat) : spent g g k.
Proof. unfold spent; lia. Qed.

Lemma spent_trans (g1 g2 g3 : Rng) (j k : nat) :
  spent g1 g2 j -> spent g2 g3 k -> spent g1 g3 (j + k).
Proof. unfold spent; lia. Qed.

Lemma spent_weaken (g g' : Rng) (j k : nat) :
  (j <= k)%nat -> spent g g' j -> spent g g' k.
Proof. unfold spent; lia. Qed.

Lemma spent_choice (g : Rng) : spent g (snd (choice [-1; 1] g)) 1.
Proof.
  destruct (choice_pm g) as [_ ->]. unfold spent. rewrite cursor_advance. lia.
Qed.

Lemma round_candidates_spent (s_prev : option R) (g : Rng) :
  (forall sp, s_prev = Some sp -> is_sign sp) ->
  length (fst (round_candidates s_prev g)) = 2%nat
  /\ spent g (snd (round_candidates s_prev g)) 1.
Proof.
  intros Hs. destruct s_prev as [sp|].
  - rewrite round_candidates_some by auto. split; [reflexivity|apply spent_refl].
  - cbn [round_candidates]. destruct (shuffle_pair g) as [[->| ->] ->];
      (split; [reflexivity|]); unfold spent; rewrite cursor_advance; lia.
Qed.

Section SearchCost.
Variables (comp : R) (hl hr ht hb : bool) (pvx pvy ps : R).

Lemma propose_spent (s : R) (g : Rng) :
  spent g (snd (propose hl hr ht hb s g)) 1.
Proof.
  unfold propose.
  destruct (wall_sign hl hr), (wall_sign ht hb);
    try destruct (fgt (Rabs _) _); cbn [snd]; try apply spent_refl.
  pose proof (spent_choice g) as H.
  destruct (choice [-1; 1] g); exact H.
Qed.

Lemma try_candidate_spent (s : R) (g : Rng) :
  spent g (snd (try_candidate comp hl hr ht hb pvx pvy ps s g)) 1.
Proof.
  unfold try_candidate. pose proof (propose_spent s g) as H.
  destruct (propose hl hr ht hb s g) as [[[a b]|] g1]; cbn [snd] in *;
    [destruct (reverses _ _ _ _ _ _)|]; exact H.
Qed.

Lemma for_candidates_spent (cands : list R) (g : Rng) :
  spent g (snd (for_candidates comp hl hr ht hb pvx pvy ps cands g))
    (length cands).
Proof.
  revert g. induction cands as [|s rest IH]; intros g; cbn [for_candidates length].
  - apply spent_refl.
  - pose proof (try_candidate_spent s g) as H1.
    destruct (try_candidate _ _ _ _ _ _ _ _ s g) as [[v|] g1]; cbn [snd] in *.
    + eapply spent_weaken; [|exact H1]. lia.
    + change (S (length rest)) with (1 + length rest)%nat.
      eapply spent_trans; [exact H1|apply IH].
Qed.

Lemma search_rounds_spent (n : nat) (s_prev : option R) (g : Rng) :
  (forall sp, s_prev = Some sp -> is_sign sp) ->
  spent g (snd (search_rounds comp hl hr ht hb pvx pvy ps n s_prev g)) (3 * n).
Proof.
  intros Hs. revert g. induction n as [|n IH]; intros g; cbn [search_rounds].
  - apply spent_refl.
  - destruct (round_candidates_spent s_prev g Hs) as [Hlen H1].
    destruct (round_candidates s_prev g) as [cands g1]. cbn [fst snd] in *.
    pose proof (for_candidates_spent cands g1) as H2. rewrite Hlen in H2.
    destruct (for_candidates _ _ _ _ _ _ _ _ cands g1) as [[v|] g2];
      cbn [snd] in *.
    + unfold spent in *; lia.
    + specialize (IH g2). unfold spent in *; lia.
Qed.

Lemma fallback_spent (g : Rng) :
  spent g (snd (fallback comp hl hr ht hb g)) 2.
Proof.
  unfold fallback.
  assert (H1 : spent g (snd (if hl then (1, g) else if hr then (-1, g)
                             else choice [-1; 1] g)) 1).
  { destruct hl, hr; cbn [snd]; try apply spent_refl. apply spent_choice. }
  destruct (if hl then (1, g) else if hr then (-1, g) else choice [-1; 1] g)
    as [hx g1]. cbn [snd] in H1.
  assert (H2 : spent g1 (snd (if ht then (1, g1) else if hb then (-1, g1)
                              else choice [-1; 1] g1)) 1).
  { destruct ht, hb; cbn [snd]; try apply spent_refl. apply spent_choice. }
  destruct (if ht then (1, g1) else if hb then (-1, g1) else choice [-1; 1] g1)
    as [hy g2]. cbn [snd] in *. unfold spent in *; lia.
Qed.

(** A round in which every candidate is turned down without a draw leaves
    the search where it was. *)
Lemma search_rounds_stuck (n : nat) (sp : R) (g : Rng) :
  for_candidates comp hl hr ht hb pvx pvy ps
    (fst (round_candidates (Some sp) g)) g = (None, g) ->
  search_rounds comp hl hr ht hb pvx pvy ps n (Some sp) g = (None, g).
Proof.
  intros Hf. induction n as [|n IH]; cbn [search_rounds]; [reflexivity|].
  cbn [round_candidates] in *. cbn [fst] in Hf. now rewrite Hf.
Qed.
End SearchCost.

Lemma pick_spent (speed_mag : R) (hl hr ht hb : bool) (pvx pvy : R) (g : Rng) :
  spent g (snd (pick_diagonal_velocity speed_mag hl hr ht hb pvx pvy g)) 50.
Proof.
  unfold pick_diagonal_velocity, search.
  pose proof (search_rounds_spent (comp_of speed_mag) hl hr ht hb pvx pvy
                (hypot pvx pvy) 16 (prev_handedness pvx pvy) g
                (handedness_sign pvx pvy)) as H1.
  destruct (search_rounds _ _ _ _ _ _ _ _ _ _ g) as [[v|] g1]; cbn [snd] in *.
  - unfold spent in *; lia.
  - pose proof (fallback_spent (comp_of speed_mag) hl hr ht hb g1) as H2.
    unfold spent in *; lia.
Qed.

(** ** The anti-reversal test *)

Lemma div_le_pos (n d c : R) : 0 < d -> (n / d <= c <-> n <= c * d).
Proof.
  intros Hd. assert (Hn : n = n / d * d) by (field; lra).
  split; intros H.
  - rewrite Hn. apply Rmult_le_compat_r; lra.
  - apply (Rmult_le_reg_r d); [exact Hd|]. now rewrite <- Hn.
Qed.

Lemma reverses_false_iff (comp pvx pvy ps vx vy : R) :
  0 < comp -> 0 <= ps ->
  (reverses comp pvx pvy ps vx vy = false
   <-> ps <= eps_speed \/ - (2 / 10) * (ps * comp) < pvx * vx + pvy * vy).
Proof.
  intros Hc Hps. unfold reverses. rewrite andb_false_iff, fgt_false, fle_false.
  split; (intros [H|H]; [now left|]).
  - destruct (Rle_dec ps eps_speed) as [Hle|Hgt]; [now left|right].
    assert (Hd : 0 < ps * comp) by (unfold eps_speed in *; nra).
    unfold cos_sim in H. apply Rnot_le_lt. intros Hle.
    apply (div_le_pos _ _ (- (2 / 10)) Hd) in Hle. lra.
  - destruct (Rle_dec ps eps_speed) as [Hle|Hgt]; [now left|right].
    assert (Hd : 0 < ps * comp) by (unfold eps_speed in *; nra).
    unfold cos_sim. apply Rnot_le_lt. intros Hle.
    apply (div_le_pos _ _ (- (2 / 10)) Hd) in Hle. lra.
Qed.




(** ** The handedness of the previous velocity *)

Lemma prev_handedness_some (pvx pvy : R) :
  eps_speed < hypot pvx pvy ->
  Rabs (Rabs pvx - Rabs pvy) <= py_max 1 (5 / 100 * hypot pvx pvy) ->
  prev_handedness pvx pvy = Some (signf pvy / signf pvx).
Proof.
  intros H1 H2. unfold prev_handedness.
  apply fgt_spec in H1. apply fle_spec in H2. now rewrite H1, H2.
Qed.

Lemma handed_difference (pvx pvy : R) :
  Rabs (pvx - signf pvy / signf pvx * pvy) = Rabs (Rabs pvx - Rabs pvy).
Proof.
  rewrite (sign_div_mul _ _ (signf_sign pvx)).
  unfold signf. float_cases; unfold Rabs; repeat destruct (Rcase_abs _); lra.
Qed.

(** ** Rounds that end at their first candidate, and rounds that never end *)

Lemma search_first_accept (comp : R) (hl hr ht hb : bool) (pvx pvy ps : R)
    (n : nat) (sp : R) (g g' : Rng) (v : R * R) :
  is_sign sp ->
  try_candidate comp hl hr ht hb pvx pvy ps (- sp) g = (Some v, g') ->
  search_rounds comp hl hr ht hb pvx pvy ps (S n) (Some sp) g = (Some v, g').
Proof.
  intros Hs Ht. cbn [search_rounds]. rewrite round_candidates_some by assumption.
  cbn [for_candidates]. now rewrite Ht.
Qed.

(** No wall: the first candidate is the handedness opposite to the previous
    one, and it passes the anti-reversal test when the previous velocity is
    close enough to a diagonal. *)
Lemma free_bounce_flip (speed_mag pvx pvy : R) (g : Rng) :
  eps_speed < hypot pvx pvy ->
  Rabs (Rabs pvx - Rabs pvy) <= py_max 1 (5 / 100 * hypot pvx pvy) ->
  Rabs (Rabs pvx - Rabs pvy) < 2 / 10 * hypot pvx pvy ->
  exists h, is_sign h
    /\ pick_diagonal_velocity speed_mag false false false false pvx pvy g
       = ((h * comp_of speed_mag,
           (- (signf pvy / signf pvx) * h) * comp_of speed_mag), advance g).
Proof.
  intros Heps Hnear Hclose.
  set (sp := signf pvy / signf pvx).
  assert (Hsp : is_sign sp) by (apply sign_div; apply signf_sign).
  pose proof (comp_of_pos speed_mag) as Hc.
  destruct (choice_pm g) as [Hh Hg].
  exists (fst (choice [-1; 1] g)). split; [exact Hh|].
  unfold pick_diagonal_velocity, search.
  rewrite (prev_handedness_some pvx pvy Heps Hnear). fold sp.
  change 16%nat with (S 15).
  erewrite search_first_accept; [reflexivity|exact Hsp|].
  unfold try_candidate, propose. cbn [wall_sign].
  destruct (choice [-1; 1] g) as [h g1]. cbn [fst snd] in Hh, Hg. subst g1.
  assert (Hrev : reverses (comp_of speed_mag) pvx pvy (hypot pvx pvy)
                   (h * comp_of speed_mag) (- sp * h * comp_of speed_mag) = false).
  { apply reverses_false_iff; [exact Hc|apply hypot_nonneg|right].
    rewrite <- handed_difference in Hclose. fold sp in Hclose.
    apply Rabs_def2 in Hclose. destruct Hclose as [Hlo Hhi].
    replace (pvx * (h * comp_of speed_mag) + pvy * (- sp * h * comp_of speed_mag))
      with (h * (pvx - sp * pvy) * comp_of speed_mag) by ring.
    destruct Hh as [->| ->]; nra. }
  now rewrite Hrev.
Qed.

Lemma flipped_handedness (h sp c : R) :
  is_sign h -> is_sign sp -> 0 < c ->
  signf (- sp * h * c) / signf (h * c) = - sp.
Proof.
  intros Hh Hs Hc.
  rewrite (signf_scaled (- sp * h) c), (signf_scaled h c); try assumption.
  - destruct Hh as [->| ->]; field.
  - destruct Hh as [->| ->], Hs as [->| ->]; unfold is_sign; lra.
Qed.

(** A clearly diagonal previous velocity passes the near-diagonal test, and
    its component magnitudes differ by at most a tenth of its magnitude. *)
Lemma clearly_diagonal_near (pvx pvy : R) :
  clearly_diagonal pvx pvy ->
  eps_speed < hypot pvx pvy
  /\ Rabs (Rabs pvx - Rabs pvy) <= py_max 1 (5 / 100 * hypot pvx pvy)
  /\ Rabs (Rabs pvx - Rabs pvy) <= 1 / 10 * hypot pvx pvy.
Proof.
  pose proof (hypot_nonneg pvx pvy) as H0.
  destruct (py_max_lower 1 (5 / 100 * hypot pvx pvy)) as [Hm1 Hm2].
  destruct (hypot_ge_abs pvx pvy) as [Hge _].
  intros [[Heq Heps]|[Hbig [Hd|Hd]]].
  - rewrite Heq, Rminus_diag, Rabs_R0. repeat split; lra.
  - unfold eps_speed. repeat split; lra.
  - unfold eps_speed. repeat split; lra.
Qed.

(** The margin: for a clearly diagonal previous velocity the [cos_sim] of the
    candidate of the opposite handedness lies in [-1/10, 1/10]. *)
Lemma flipped_candidate_margin (comp pvx pvy h : R) :
  0 < comp -> is_sign h -> clearly_diagonal pvx pvy ->
  - (1 / 10)
  <= cos_sim comp pvx pvy (hypot pvx pvy)
       (h * comp) (- (signf pvy / signf pvx) * h * comp)
  <= 1 / 10.
Proof.
  intros Hc Hh Hd.
  destruct (clearly_diagonal_near pvx pvy Hd) as (Heps & _ & Hclose).
  assert (Hp : 0 < hypot pvx pvy) by (unfold eps_speed in Heps; lra).
  rewrite <- handed_difference in Hclose.
  set (sp := signf pvy / signf pvx) in *.
  set (p := hypot pvx pvy) in *.
  set (x := pvx - sp * pvy) in *.
  assert (Hx : - (1 / 10 * p) <= x <= 1 / 10 * p).
  { revert Hclose. unfold Rabs. destruct (Rcase_abs x); lra. }
  unfold cos_sim.
  replace ((pvx * (h * comp) + pvy * (- sp * h * comp)) / (p * comp))
    with (h * (x / p)) by (unfold x; field; lra).
  assert (Hq : x / p * p = x) by (field; lra).
  assert (Hb : - (1 / 10) <= x / p <= 1 / 10) by (split; nra).
  destruct Hh as [->| ->]; lra.
Qed.

(** C1 (as amended). With no edge flag set and a clearly diagonal previous
    velocity (component magnitudes equal and above the speed threshold, or
    magnitude at least 10 with component magnitudes within 1 or within 4% of
    the magnitude of each other), the returned velocity has the handedness
    opposite to the previous one; in particular previous velocity (+c, +c)
    yields [sign(vy) = - sign(vx)]. *)
Theorem free_bounce_opposite_handedness (speed_mag : R) (g : Rng) :
  (forall pvx pvy : R,
      clearly_diagonal pvx pvy ->
      let v := fst (pick_diagonal_velocity speed_mag false false false false
                      pvx pvy g) in
      signf (snd v) / signf (fst v) = - (signf pvy / signf pvx))
  /\ (forall c : R,
         eps_speed < c ->
         let v := fst (pick_diagonal_velocity speed_mag false false false false
                         c c g) in
         signf (snd v) = - signf (fst v)).
Proof.
  pose proof (comp_of_pos speed_mag) as Hc.
  assert (Hgen : forall pvx pvy : R,
             clearly_diagonal pvx pvy ->
             exists h, is_sign h
               /\ fst (pick_diagonal_velocity speed_mag false false false false
                         pvx pvy g)
                  = (h * comp_of speed_mag,
                     (- (signf pvy / signf pvx) * h) * comp_of speed_mag)).
  { intros pvx pvy Hd.
    destruct (clearly_diagonal_near pvx pvy Hd) as (Heps & Hnear & Hclose).
    destruct (free_bounce_flip speed_mag pvx pvy g Heps Hnear) as (h & Hh & ->).
    - unfold eps_speed in Heps. lra.
    - exists h. split; [exact Hh|reflexivity]. }
  split.
  - intros pvx pvy Hd v. subst v.
    destruct (Hgen pvx pvy Hd) as (h & Hh & ->). cbn [fst snd].
    apply flipped_handedness; try assumption. apply sign_div; apply signf_sign.
  - intros c Hc0 v. subst v.
    assert (Hpos : 0 < c) by (unfold eps_speed in Hc0; lra).
    destruct (Hgen c c) as (h & Hh & ->).
    + left. split; [reflexivity|]. now rewrite Rabs_pos_eq by lra.
    + cbn [fst snd].
      assert (Hs : signf c / signf c = 1).
      { unfold signf; float_cases; try lra; field. }
      rewrite Hs.
      rewrite (signf_scaled (- (1) * h) (comp_of speed_mag)),
        (signf_scaled h (comp_of speed_mag)); try assumption; [ring|].
      destruct Hh as [->| ->]; unfold is_sign; lra.
Qed.

Lemma free_bounce_opposite_handedness_witness :
  (let v := fst (pick_diagonal_velocity 300 false false false false
                   (-200) 200 rng0) in
   signf (snd v) / signf (fst v) = - (signf 200 / signf (-200)))
  /\ signf (snd (fst (pick_diagonal_velocity 300 false false false false
                        100 100 rng0)))
     = - signf (fst (fst (pick_diagonal_velocity 300 false false false false
                            100 100 rng0))).
Proof.
  destruct (free_bounce_opposite_handedness 300 rng0) as [H1 H2].
  split.
  - apply H1. left. split.
    + rewrite (Rabs_left (-200)), (Rabs_pos_eq 200) by lra. ring.
    + rewrite (Rabs_left (-200)) by lra. unfold eps_speed. lra.
  - apply (H2 100). unfold eps_speed. lra.
Defined.

(** C1 fails as stated: previous velocity (100, 100), no edge hit, and the
    returned velocity does not have [sign(vy) = sign(vx)]. *)
Lemma diagonal_handedness_not_kept :
  signf (snd (fst (pick_diagonal_velocity 300 false false false false 100 100 rng0)))
  <> signf (fst (fst (pick_diagonal_velocity 300 false false false false
                        100 100 rng0))).
Proof.
  pose proof (comp_of_pos 300) as Hc.
  destruct (free_bounce_flip 300 100 100 rng0) as (h & Hh & ->).
  - destruct (hypot_ge_abs 100 100) as [Hge _].
    rewrite Rabs_pos_eq in Hge by lra. unfold eps_speed. lra.
  - rewrite Rminus_diag, Rabs_R0.
    destruct (py_max_lower 1 (5 / 100 * hypot 100 100)). lra.
  - rewrite Rminus_diag, Rabs_R0.
    destruct (hypot_ge_abs 100 100) as [Hge _].
    rewrite Rabs_pos_eq in Hge by lra. lra.
  - cbn [fst snd].
    assert (Hs : signf 100 / signf 100 = 1).
    { unfold signf; float_cases; try lra; field. }
    rewrite Hs.
    rewrite (signf_scaled (- (1) * h) (comp_of 300)),
      (signf_scaled h (comp_of 300)); try assumption.
    + destruct Hh as [->| ->]; lra.
    + destruct Hh as [->| ->]; unfold is_sign; lra.
Qed.

(** ** One wall, previous velocity (100, 100) *)

Lemma hypot_100 : hypot 100 100 = 100 * sqrt 2.
Proof. apply hypot_diag; lra. Qed.



(** ** A previous velocity below the speed threshold *)






(** ** A call that reaches the fallback *)

Lemma hypot_m100 : hypot (-100) (-100) = 100 * sqrt 2.
Proof.
  rewrite <- hypot_100. unfold hypot. f_equal. ring.
Qed.

Lemma handedness_m100 : prev_handedness (-100) (-100) = Some 1.
Proof.
  rewrite prev_handedness_some.
  - f_equal. unfold signf; float_cases; try lra; field.
  - rewrite hypot_m100. pose proof sqrt2_gt_1. unfold eps_speed. lra.
  - rewrite Rminus_diag, Rabs_R0.
    destruct (py_max_lower 1 (5 / 100 * hypot (-100) (-100))). lra.
Qed.

Lemma corner_against_motion_reverses (speed_mag : R) :
  reverses (comp_of speed_mag) (-100) (-100) (hypot (-100) (-100))
    (1 * comp_of speed_mag) (1 * comp_of speed_mag) = true.
Proof.
  pose proof (comp_of_pos speed_mag) as Hc. pose proof sqrt2_gt_1 as Hs.
  assert (H2 : sqrt 2 * sqrt 2 = 2) by (apply sqrt_sqrt; lra).
  unfold reverses. rewrite hypot_m100. apply andb_true_iff. split.
  - apply fgt_spec. unfold eps_speed. lra.
  - apply fle_spec. unfold cos_sim. apply div_le_pos; nra.
Qed.

Lemma corner_against_motion_search (speed_mag : R) (g : Rng) :
  search speed_mag true false true false (-100) (-100) g = (None, g).
Proof.
  unfold search. rewrite handedness_m100. apply search_rounds_stuck.
  rewrite round_candidates_some by (left; reflexivity). cbn [fst for_candidates].
  rewrite (corner_mismatch_rejected _ true false true false _ _ _ 1 1);
    [|reflexivity|reflexivity|right; reflexivity|lra].
  unfold try_candidate, propose. cbn [wall_sign].
  assert (Hm : fgt (Rabs (1 / 1 - 1)) (1 / 10) = false).
  { apply fgt_false. replace (1 / 1 - 1) with 0 by field. rewrite Rabs_R0. lra. }
  rewrite Hm. now rewrite corner_against_motion_reverses.
Qed.

Lemma choice_split (k : Rng) :
  exists x, choice [-1; 1] k = (x, advance k).
Proof.
  destruct (choice_pm k) as [_ Hk].
  destruct (choice [-1; 1] k) as [x k']. cbn [snd] in Hk. subst k'. now exists x.
Qed.

(** The fallback, axis by axis. *)
Lemma fallback_signs (comp : R) (hl hr ht hb : bool) (g : Rng) :
  let g1 := match wall_sign hl hr with Some _ => g | None => advance g end in
  fallback comp hl hr ht hb g
  = ((match wall_sign hl hr with
      | Some hx => hx
      | None => fst (choice [-1; 1] g)
      end * comp,
      match wall_sign ht hb with
      | Some hy => hy
      | None => fst (choice [-1; 1] g1)
      end * comp),
     match wall_sign ht hb with Some _ => g1 | None => advance g1 end).
Proof.
  cbv zeta. unfold fallback.
  destruct (choice_split g) as [x Hx].
  destruct (choice_split (advance g)) as [y Hy].
  destruct hl, hr, ht, hb; cbn [wall_sign];
    rewrite ?Hx; cbn [fst snd]; rewrite ?Hy; cbn [fst snd]; reflexivity.
Qed.

(** C7. Every call returns a velocity and takes at most 50 draws from the
    random source: either one of the 16 rounds returns it, or all 16 rounds
    end without a result and the fallback returns the wall-forced sign on each
    constrained axis and a sign drawn from the random source on each other
    axis.  The fallback does not apply the anti-reversal test: the call with
    the left and top walls hit and previous velocity (-100, -100) returns a
    vector that the test turns down. *)
Theorem pick_always_returns :
  (forall (speed_mag : R) (hl hr ht hb : bool) (pvx pvy : R) (g : Rng),
      exists vx vy g',
        pick_diagonal_velocity speed_mag hl hr ht hb pvx pvy g = ((vx, vy), g')
        /\ spent g g' 50
        /\ (search speed_mag hl hr ht hb pvx pvy g = (Some (vx, vy), g')
            \/ exists g1,
                 search speed_mag hl hr ht hb pvx pvy g = (None, g1)
                 /\ spent g g1 48
                 /\ vx = match wall_sign hl hr with
                         | Some hx => hx
                         | None => fst (choice [-1; 1] g1)
                         end * comp_of speed_mag
                 /\ vy = match wall_sign ht hb with
                         | Some hy => hy
                         | None =>
                             fst (choice [-1; 1]
                                    match wall_sign hl hr with
                                    | Some _ => g1
                                    | None => advance g1
                                    end)
                         end * comp_of speed_mag))
  /\ (forall (speed_mag : R) (g : Rng),
         pick_diagonal_velocity speed_mag true false true false (-100) (-100) g
         = ((1 * comp_of speed_mag, 1 * comp_of speed_mag), g)
         /\ search speed_mag true false true false (-100) (-100) g = (None, g)
         /\ reverses (comp_of speed_mag) (-100) (-100) (hypot (-100) (-100))
              (1 * comp_of speed_mag) (1 * comp_of speed_mag) = true).
Proof.
  split.
  - intros speed_mag hl hr ht hb pvx pvy g.
    pose proof (pick_spent speed_mag hl hr ht hb pvx pvy g) as Hcost.
    unfold pick_diagonal_velocity in *.
    pose proof (search_rounds_spent (comp_of speed_mag) hl hr ht hb pvx pvy
                  (hypot pvx pvy) 16 (prev_handedness pvx pvy) g
                  (handedness_sign pvx pvy)) as Hs.
    fold (search speed_mag hl hr ht hb pvx pvy g) in Hs.
    destruct (search speed_mag hl hr ht hb pvx pvy g) as [[[vx vy]|] g1].
    + exists vx, vy, g1. cbn [snd] in Hcost.
      split; [reflexivity|]. split; [exact Hcost|]. now left.
    + cbn [snd] in Hs. rewrite fallback_signs in *. cbn [snd] in Hcost.
      eexists _, _, _.
      split; [reflexivity|]. split; [exact Hcost|]. right. exists g1.
      split; [reflexivity|]. split; [exact Hs|]. split; reflexivity.
  - intros speed_mag g.
    pose proof (corner_against_motion_search speed_mag g) as Hs.
    split; [|split].
    + unfold pick_diagonal_velocity. rewrite Hs. apply fallback_signs.
    + exact Hs.
    + apply corner_against_motion_reverses.
Qed.

(** ** Rules for traces *)

Lemma evolves_refl (P : event -> Prop) (w : World) : evolves P w w.
Proof.
  unfold evolves. do 3 (split; [reflexivity|]).
  exists []. split; [reflexivity|constructor].
Qed.

Lemma evolves_trans (P : event -> Prop) (w1 w2 w3 : World) :
  evolves P w1 w2 -> evolves P w2 w3 -> evolves P w1 w3.
Proof.
  intros (Hd1 & Hw1 & Hh1 & evs1 & Ht1 & Hp1) (Hd2 & Hw2 & Hh2 & evs2 & Ht2 & Hp2).
  unfold evolves. split; [congruence|]. split; [congruence|]. split; [congruence|].
  exists (evs2 ++ evs1). split.
  - rewrite Ht2, Ht1. apply app_assoc.
  - apply Forall_app. now split.
Qed.

Lemma evolves_one (P : event -> Prop) (e : event) (w w' : World) :
  P e ->
  display_open w' = display_open w ->
  screen_width w' = screen_width w ->
  screen_height w' = screen_height w ->
  trace w' = e :: trace w ->
  evolves P w w'.
Proof.
  intros He Hd Hw Hh Ht. unfold evolves. do 3 (split; [assumption|]).
  exists [e]. split; [exact Ht|]. now constructor.
Qed.

Lemma evolves_silent (P : event -> Prop) (w w' : World) :
  display_open w' = display_open w ->
  screen_width w' = screen_width w ->
  screen_height w' = screen_height w ->
  trace w' = trace w ->
  evolves P w w'.
Proof.
  intros Hd Hw Hh Ht. unfold evolves. do 3 (split; [assumption|]).
  exists []. split; [exact Ht|constructor].
Qed.

Section TripleRules.
Variables (W H : Z).
Context {A B : Type}.
Variable P : event -> Prop.

Lemma triple_ret (a : A) (Q : A -> Prop) : Q a -> triple W H P (ret a) Q.
Proof.
  intros Hq w out w' _ _ [= <- <-]. split; [apply evolves_refl|].
  now intros a' [= <-].
Qed.

Lemma triple_raise (e : exn) (Q : A -> Prop) : triple W H P (raise e) Q.
Proof.
  intros w out w' _ _ [= <- <-]. split; [apply evolves_refl|]. discriminate.
Qed.

Lemma triple_running (Q : A -> Prop) : triple W H P running Q.
Proof.
  intros w out w' _ _ [= <- <-]. split; [apply evolves_refl|]. discriminate.
Qed.

Lemma triple_bind (c : M A) (k : A -> M B) (Q : A -> Prop) (Q' : B -> Prop) :
  triple W H P c Q ->
  (forall a, Q a -> triple W H P (k a) Q') ->
  triple W H P (bind c k) Q'.
Proof.
  intros Hc Hk w out w' Hw Hh E. unfold bind in E.
  destruct (c w) as [[a|e|] w1] eqn:Ec;
    destruct (Hc w _ w1 Hw Hh Ec) as [He Hq].
  - destruct He as (Hd1 & Hw1 & Hh1 & Hev).
    destruct (Hk a (Hq a eq_refl) w1 out w') as [He2 Hq2];
      [congruence|congruence|exact E|].
    split; [|exact Hq2].
    eapply evolves_trans; [|exact He2].
    unfold evolves. auto.
  - injection E as <- <-. split; [exact He|discriminate].
  - injection E as <- <-. split; [exact He|discriminate].
Qed.

Lemma triple_try_finally (body : M A) (fin : M unit) (Q : A -> Prop) :
  triple W H P body Q ->
  triple W H P fin (fun _ => True) ->
  triple W H P (try_finally body fin) Q.
Proof.
  intros Hb Hf w out w' Hw Hh E. unfold try_finally in E.
  destruct (body w) as [r w1] eqn:Eb.
  destruct (Hb w r w1 Hw Hh Eb) as [He Hq].
  assert (Hw1 : screen_width w1 = W) by (destruct He as (_ & -> & _); exact Hw).
  assert (Hh1 : screen_height w1 = H) by (destruct He as (_ & _ & -> & _); exact Hh).
  destruct r as [a|e|].
  - destruct (fin w1) as [[u|e2|] w2] eqn:Ef;
      destruct (Hf w1 _ w2 Hw1 Hh1 Ef) as [He2 _];
      injection E as <- <-;
      (split; [eapply evolves_trans; eauto|]); try discriminate. exact Hq.
  - destruct (fin w1) as [[u|e2|] w2] eqn:Ef;
      destruct (Hf w1 _ w2 Hw1 Hh1 Ef) as [He2 _];
      injection E as <- <-;
      (split; [eapply evolves_trans; eauto|]); discriminate.
  - injection E as <- <-. split; [exact He|discriminate].
Qed.

Lemma triple_try_except (body handler : M A) (handles : exn -> bool)
    (Q : A -> Prop) :
  triple W H P body Q ->
  triple W H P handler Q ->
  triple W H P (try_except body handles handler) Q.
Proof.
  intros Hb Hh' w out w' Hw Hh E. unfold try_except in E.
  destruct (body w) as [r w1] eqn:Eb.
  destruct (Hb w r w1 Hw Hh Eb) as [He Hq].
  destruct r as [a|e|].
  - injection E as <- <-. split; assumption.
  - destruct (handles e).
    + destruct (Hh' w1 out w') as [He2 Hq2]; try exact E.
      * destruct He as (_ & -> & _); exact Hw.
      * destruct He as (_ & _ & -> & _); exact Hh.
      * split; [eapply evolves_trans; eauto|exact Hq2].
    + injection E as <- <-. split; [exact He|discriminate].
  - injection E as <- <-. split; [exact He|discriminate].
Qed.
End TripleRules.

(** ** What the adapter calls add to the trace *)

Ltac run_primitive E :=
  repeat match type of E with
    | context [if ?c then _ else _] => destruct c
    | context [match ?c with Some _ => _ | None => _ end] => destruct c
    end;
  injection E as <- <-.

Section Primitives.
Variables (W H : Z) (P : event -> Prop).
Hypothesis Pbenign : forall e, benign e -> P e.

Lemma triple_assert_display : triple W H P assert_display (fun _ => True).
Proof.
  intros w out w' _ _ E. unfold assert_display in E. run_primitive E;
    (split; [apply evolves_refl|auto]).
Qed.

Lemma triple_emit (e : event) : P e -> triple W H P (emit e) (fun _ => True).
Proof.
  intros He w out w' _ _ E. unfold emit in E. injection E as <- <-.
  split; [|auto]. now apply (evolves_one P e).
Qed.

Lemma triple_lift_rng {A : Type} (f : Rng -> A * Rng) :
  triple W H P (lift_rng f) (fun _ => True).
Proof.
  intros w out w' _ _ E. unfold lift_rng in E. injection E as <- <-.
  split; [|auto]. now apply evolves_silent.
Qed.

Lemma triple_perf_counter : triple W H P perf_counter (fun _ => True).
Proof.
  intros w out w' _ _ E. unfold perf_counter in E. injection E as <- <-.
  split; [|auto]. now apply evolves_silent.
Qed.

Lemma triple_sleep (s : R) : triple W H P (sleep s) (fun _ => True).
Proof.
  intros w out w' _ _ E. unfold sleep in E. run_primitive E;
    (split; [|auto]); apply (evolves_one P (EvSleep s)); auto;
    apply Pbenign; exact I.
Qed.

Lemma triple_x_undefine_cursor : triple W H P x_undefine_cursor (fun _ => True).
Proof.
  intros w out w' _ _ E. unfold x_undefine_cursor in E. run_primitive E;
    (split; [|auto]); eapply evolves_one; try reflexivity;
    apply Pbenign; exact I.
Qed.

Lemma triple_restore_cursor : triple W H P restore_cursor (fun _ => True).
Proof.
  unfold restore_cursor. eapply triple_bind; [apply triple_assert_display|].
  intros _ _. apply triple_x_undefine_cursor.
Qed.

Lemma triple_force_arrow_cursor : triple W H P force_arrow_cursor (fun _ => True).
Proof.
  unfold force_arrow_cursor. eapply triple_bind; [apply triple_assert_display|].
  intros _ _. apply triple_emit, Pbenign. exact I.
Qed.

Lemma triple_get_virtual_bounds :
  triple W H P get_virtual_bounds (fun d => d = (W, H)).
Proof.
  unfold get_virtual_bounds. eapply triple_bind; [apply triple_assert_display|].
  intros _ _ w out w' Hw Hh E. injection E as <- <-.
  split; [apply evolves_refl|]. intros a [= <-]. now rewrite Hw, Hh.
Qed.

Lemma triple_get_cursor_pos : triple W H P get_cursor_pos (fun _ => True).
Proof.
  unfold get_cursor_pos. eapply triple_bind; [apply triple_assert_display|].
  intros _ _ w out w' Hw Hh E. injection E as <- <-.
  split; [apply evolves_refl|auto].
Qed.

Lemma triple_set_cursor_pos (x y : Z) :
  P (EvSetCursorPos x y) -> triple W H P (set_cursor_pos x y) (fun _ => True).
Proof.
  intros Hp. unfold set_cursor_pos.
  eapply triple_bind; [apply triple_assert_display|].
  intros _ _ w out w' Hw Hh E. injection E as <- <-.
  split; [|auto]. now apply (evolves_one P (EvSetCursorPos x y)).
Qed.

Lemma triple_query_idle_ms : triple W H P query_idle_ms (fun _ => True).
Proof.
  unfold query_idle_ms. eapply triple_bind; [apply triple_assert_display|].
  intros _ _ w out w' Hw Hh E. run_primitive E; (split; [|auto]);
    eapply evolves_one; try reflexivity; apply Pbenign; exact I.
Qed.

Lemma triple_hotkey_quit_pressed :
  triple W H P hotkey_quit_pressed (fun _ => True).
Proof.
  unfold hotkey_quit_pressed. eapply triple_bind; [apply triple_assert_display|].
  intros _ _ w out w' Hw Hh E. injection E as <- <-. split; [|auto].
  eapply evolves_one; try reflexivity. apply Pbenign; exact I.
Qed.
End Primitives.

(** ** The animation only writes positions that went through an edge pass *)

Section Animation.
Variables (W H : Z) (b : Bounds).

Lemma frame_event_benign (e : event) : benign e -> frame_event b e.
Proof. now left. Qed.

Lemma triple_frame (frame_dt : R) (st : Anim) :
  triple W H (frame_event b) (frame b frame_dt st) (fun _ => True).
Proof.
  unfold frame.
  eapply triple_bind; [apply triple_hotkey_quit_pressed, frame_event_benign|].
  intros pressed _. destruct pressed; [apply triple_raise|].
  eapply triple_bind; [apply triple_query_idle_ms, frame_event_benign|].
  intros idle_ms _. destruct (_ <? _)%Z; [now apply triple_ret|].
  eapply triple_bind; [apply triple_perf_counter|].
  intros now _. cbv zeta.
  set (px := pos_x st + vel_x st * _). set (py := pos_y st + vel_y st * _).
  eapply (triple_bind _ _ _ _ _ (fun m => fst m = edge_pass b px py)).
  - unfold edge_pass. destruct (any_hit (edge_hits b px py)).
    + eapply triple_bind; [apply triple_lift_rng|].
      intros v _. now apply triple_ret.
    + now apply triple_ret.
  - intros moved Hm.
    eapply triple_bind.
    { apply triple_set_cursor_pos. right. exists px, py. now rewrite Hm. }
    intros _ _.
    eapply triple_bind; [apply triple_sleep, frame_event_benign|].
    intros _ _. now apply triple_ret.
Qed.

Lemma triple_animate (fuel : nat) (frame_dt : R) (st : Anim) :
  triple W H (frame_event b) (animate fuel b frame_dt st) (fun _ => True).
Proof.
  revert st. induction fuel as [|fuel IH]; intros st; cbn [animate].
  - apply triple_running.
  - eapply triple_bind; [apply triple_frame|].
    intros [st'|] _; [apply IH|now apply triple_ret].
Qed.

Lemma triple_guarded_animation (fuel : nat) (frame_dt : R) (st : Anim) :
  triple W H (frame_event b) (guarded_animation fuel b frame_dt st) (fun _ => True).
Proof.
  unfold guarded_animation. apply triple_try_finally.
  - apply triple_animate.
  - apply triple_restore_cursor, frame_event_benign.
Qed.
End Animation.

Lemma triple_saver_body (W H : Z) (fuel : nat) (fps : R) :
  triple W H (frame_event (bounds_of W H)) (saver_body fuel fps) (fun _ => True).
Proof.
  unfold saver_body.
  eapply triple_bind; [apply triple_query_idle_ms, frame_event_benign|].
  intros idle_prev _.
  eapply triple_bind; [apply triple_get_virtual_bounds|].
  intros dims ->. cbn [fst snd].
  eapply triple_bind; [apply triple_get_cursor_pos|]. intros start _.
  eapply triple_bind; [apply triple_force_arrow_cursor, frame_event_benign|].
  intros _ _.
  eapply triple_bind; [apply triple_lift_rng|]. intros speed _.
  eapply triple_bind; [apply triple_lift_rng|]. intros v _. cbv zeta.
  eapply triple_bind; [apply triple_perf_counter|]. intros t0 _.
  apply triple_guarded_animation.
Qed.

(** A call of [run_cursor_screensaver] adds its entry and then only frame
    events for the bounds of the screen. *)
Lemma run_saver_trace (fuel : nat) (fps : R) (w w' : World) (out : outcome unit) :
  run_cursor_screensaver fuel fps w = (out, w') ->
  display_open w' = display_open w
  /\ screen_width w' = screen_width w
  /\ screen_height w' = screen_height w
  /\ exists evs,
       trace w' = evs ++ EvEnterSaver :: trace w
       /\ Forall (frame_event (bounds_of (screen_width w) (screen_height w))) evs.
Proof.
  unfold run_cursor_screensaver, bind, emit. intros E.
  destruct (triple_saver_body (screen_width w) (screen_height w) fuel fps
              (log EvEnterSaver w) out w' eq_refl eq_refl E)
    as [(Hd & Hw & Hh & evs & Ht & Hp) _].
  repeat (split; [assumption|]). exists evs. now split.
Qed.

(** ** Rounding and the edge pass *)

Lemma py_round_between (lo hi : Z) (x : R) :
  IZR lo <= x <= IZR hi -> (lo <= py_round x <= hi)%Z.
Proof.
  intros [Hlo Hhi]. unfold py_round.
  pose proof (Zfloor_bound x) as [Hf1 Hf2].
  assert (Hge : (lo <= Zfloor x)%Z) by now apply Zfloor_lub.
  assert (Hle : (Zfloor x <= hi)%Z) by (apply le_IZR; lra).
  destruct (flt (x - IZR (Zfloor x)) (1 / 2)) eqn:E1; [lia|].
  apply flt_false in E1.
  assert (Hlt : (Zfloor x < hi)%Z) by (apply lt_IZR; lra).
  destruct (fgt _ _); [lia|]. destruct (Z.even _); lia.
Qed.

Lemma edge_pass_inside (width height : Z) (px py : R) :
  (2 <= width)%Z -> (2 <= height)%Z ->
  let b := bounds_of width height in
  min_x b <= fst (edge_pass b px py) <= max_x b
  /\ min_y b <= snd (edge_pass b px py) <= max_y b.
Proof.
  intros Hw Hh b. subst b.
  assert (Hx : 1 <= IZR (width - 1)) by (apply (IZR_le 1); lia).
  assert (Hy : 1 <= IZR (height - 1)) by (apply (IZR_le 1); lia).
  unfold edge_pass, any_hit, edge_hits, resolve_position, clamp, bounds_of.
  cbn [min_x min_y max_x max_y hit_left hit_right hit_top hit_bottom].
  set (mx := IZR (width - 1)) in *. set (my := IZR (height - 1)) in *.
  destruct (flt px 0) eqn:El; destruct (fgt px mx) eqn:Er;
    destruct (flt py 0) eqn:Et; destruct (fgt py my) eqn:Eb;
    cbn [orb fst snd];
    rewrite ?flt_spec, ?flt_false, ?fgt_spec, ?fgt_false in *;
    try lra;
    unfold py_max, py_min; float_cases; lra.
Qed.

Lemma edge_pass_overshoot (b : Bounds) (py : R) :
  fst (edge_pass b (max_x b + 5) py) = max_x b - 1.
Proof.
  unfold edge_pass, any_hit, edge_hits, resolve_position.
  cbn [hit_left hit_right hit_top hit_bottom].
  assert (Er : fgt (max_x b + 5) (max_x b) = true) by (apply fgt_spec; lra).
  rewrite Er, orb_true_r. cbn [orb fst]. reflexivity.
Qed.

Lemma frame_event_within (width height : Z) (e : event) :
  (2 <= width)%Z -> (2 <= height)%Z ->
  frame_event (bounds_of width height) e -> within_screen width height e.
Proof.
  intros Hw Hh [Hb|(px & py & ->)].
  - destruct e; cbn in *; auto; contradiction.
  - cbn [within_screen].
    destruct (edge_pass_inside width height px py Hw Hh) as [Hx Hy].
    cbn [bounds_of min_x min_y max_x max_y] in Hx, Hy.
    split; apply py_round_between; assumption.
Qed.

(** C8 (as amended). On a screen at least 2 pixels wide and 2 pixels high,
    every position that a call of run_cursor_screensaver passes to the
    pointer-write call lies within [0, width-1] x [0, height-1]; a position
    that integration leaves at max_x + 5 is set to exactly max_x - 1 by one
    edge-resolution pass; and no edge-resolution pass leaves the position
    outside [0, max_x] x [0, max_y]. *)
Theorem pointer_stays_on_screen (width height : Z) :
  (2 <= width)%Z -> (2 <= height)%Z ->
  let b := bounds_of width height in
  (forall (fuel : nat) (fps : R) (w w' : World) (out : outcome unit),
      screen_width w = width -> screen_height w = height ->
      run_cursor_screensaver fuel fps w = (out, w') ->
      exists evs,
        trace w' = evs ++ trace w /\ Forall (within_screen width height) evs)
  /\ (forall py, fst (edge_pass b (max_x b + 5) py) = max_x b - 1)
  /\ (forall px py,
         0 <= fst (edge_pass b px py) <= max_x b
         /\ 0 <= snd (edge_pass b px py) <= max_y b).
Proof.
  intros Hw Hh b. split; [|split].
  - intros fuel fps w w' out Ew Eh E.
    destruct (run_saver_trace fuel fps w w' out E) as (_ & _ & _ & evs & Ht & Hp).
    rewrite Ew, Eh in Hp.
    exists (evs ++ [EvEnterSaver]). split.
    + rewrite Ht, <- app_assoc. reflexivity.
    + apply Forall_app. split.
      * eapply Forall_impl; [|exact Hp].
        intros e. now apply frame_event_within.
      * repeat constructor.
  - intros py. apply edge_pass_overshoot.
  - intros px py. apply (edge_pass_inside width height px py Hw Hh).
Qed.

Lemma pointer_stays_on_screen_witness :
  exists evs,
    trace (snd (run_cursor_screensaver 3 120 world_busy)) = evs ++ []
    /\ Forall (within_screen 1920 1080) evs.
Proof.
  destruct (pointer_stays_on_screen 1920 1080) as (H & _ & _); [lia|lia|].
  apply (H 3%nat 120 world_busy _ (fst (run_cursor_screensaver 3 120 world_busy)));
    [reflexivity|reflexivity|apply surjective_pairing].
Defined.

(** C8 fails as stated: on a screen one pixel wide, a position that
    integration leaves at max_x + 5 is moved to -1, outside [0, max_x]. *)
Lemma one_pixel_screen_escapes :
  let b := bounds_of 1 1080 in
  ~ (0 <= fst (edge_pass b (max_x b + 5) 10) <= max_x b).
Proof.
  cbv zeta. rewrite edge_pass_overshoot. cbn [bounds_of max_x].
  replace (IZR (1 - 1)) with 0 by reflexivity. lra.
Qed.

(** ** Leaving the animation *)

Lemma restore_cursor_open (w : World) :
  display_open w = true ->
  exists ok : bool,
    restore_cursor w
    = ((if ok then Done tt else Raised XlibError) : outcome unit,
       log (EvUndefineCursor ok) (bump w)).
Proof.
  intros Hd. unfold restore_cursor, bind, assert_display, x_undefine_cursor.
  rewrite Hd. destruct (xfail_at w (tick w)); [now exists false|now exists true].
Qed.

(** X22. On every exit path of the animation loop (the break on detected
    input, the termination request raised for the quit hotkey, an exception
    of an adapter call or an interrupt during the sleep) the call that
    restores the cursor shape is the last thing the statement does before
    the function is left, and when that call succeeds the pending result of
    the loop is what leaves the function. *)
Theorem animation_exit_restores (fuel : nat) (b : Bounds) (frame_dt : R)
    (st : Anim) (w w' : World) (out : outcome unit) :
  display_open w = true ->
  guarded_animation fuel b frame_dt st w = (out, w') ->
  out <> Running ->
  exists r w1 ok,
    animate fuel b frame_dt st w = (r, w1)
    /\ r <> Running
    /\ trace w' = EvUndefineCursor ok :: trace w1
    /\ (ok = true -> out = r).
Proof.
  intros Hd E Hrun. unfold guarded_animation, try_finally in E.
  destruct (animate fuel b frame_dt st w) as [r w1] eqn:Ea.
  destruct (triple_animate (screen_width w) (screen_height w) b fuel frame_dt st
              w r w1 eq_refl eq_refl Ea) as [(Hd1 & _) _].
  rewrite Hd in Hd1.
  destruct (restore_cursor_open w1 Hd1) as [ok Hr].
  exists r, w1, ok.
  destruct r as [u|e|].
  - rewrite Hr in E. destruct ok; injection E as <- <-;
      (split; [reflexivity|]); (split; [discriminate|]);
      (split; [reflexivity|]); intros; congruence.
  - rewrite Hr in E. destruct ok; injection E as <- <-;
      (split; [reflexivity|]); (split; [discriminate|]);
      (split; [reflexivity|]); intros; congruence.
  - injection E as <- <-. contradiction.
Qed.

Lemma quit_leaves_animation :
  fst (guarded_animation 1 (bounds_of 1920 1080) (1 / 120)
         (mkAnim 10 10 1 1 0 0) world_quit)
  = Raised (SystemExit 0).
Proof. reflexivity. Qed.

Lemma animation_exit_restores_witness :
  exists r w1 ok,
    animate 1 (bounds_of 1920 1080) (1 / 120) (mkAnim 10 10 1 1 0 0) world_quit
    = (r, w1)
    /\ r <> Running
    /\ trace (snd (guarded_animation 1 (bounds_of 1920 1080) (1 / 120)
                     (mkAnim 10 10 1 1 0 0) world_quit))
       = EvUndefineCursor ok :: trace w1
    /\ (ok = true
        -> fst (guarded_animation 1 (bounds_of 1920 1080) (1 / 120)
                  (mkAnim 10 10 1 1 0 0) world_quit) = r).
Proof.
  apply (animation_exit_restores 1 (bounds_of 1920 1080) (1 / 120)
           (mkAnim 10 10 1 1 0 0) world_quit).
  - reflexivity.
  - apply surjective_pairing.
  - rewrite quit_leaves_animation. discriminate.
Defined.


(** On the same session [close], which wraps the same X call in
    [try: ... except Exception: pass], does swallow the failure. *)
Lemma close_swallows_failure :
  fst (xc_close world_xfail) = Done tt.
Proof. reflexivity. Qed.

(** ** The idle monitor *)

Lemma fge_false (x y : R) : fge x y = false <-> x < y.
Proof. float_cases; split; intros; try lra; congruence. Qed.

Lemma frame_event_calm (b : Bounds) (e : event) : frame_event b e -> calm e.
Proof.
  intros [Hb|(px & py & ->)]; unfold calm.
  - intros ->. exact Hb.
  - discriminate.
Qed.

Lemma guarded_cons_calm (thr : Z) (e : event) (tr : list event) :
  calm e -> saver_guarded thr tr -> saver_guarded thr (e :: tr).
Proof.
  unfold calm. intros He Hg. destruct e; cbn [saver_guarded]; auto. congruence.
Qed.

Lemma guarded_app_calm (thr : Z) (evs tr : list event) :
  Forall calm evs -> saver_guarded thr tr -> saver_guarded thr (evs ++ tr).
Proof.
  induction 1 as [|e evs He _ IH]; intros Hg; cbn [app]; [exact Hg|].
  apply guarded_cons_calm; auto.
Qed.

Lemma hotkey_step (w : World) :
  hotkey_quit_pressed w
  = if display_open w
    then (Done (hotkey_at w (tick w)),
          log (EvHotkey (hotkey_at w (tick w))) (bump w))
    else (Raised AssertionError, w).
Proof.
  unfold hotkey_quit_pressed, bind, assert_display.
  destruct (display_open w); reflexivity.
Qed.

Lemma idle_seconds_step (w : World) :
  get_idle_seconds w
  = if display_open w
    then match idle_at w (tick w) with
         | Some ms => (Done (IZR ms / 1000), log (EvQueryIdle ms) (bump w))
         | None => (Raised OSError, log EvQueryIdleFailed (bump w))
         end
    else (Raised AssertionError, w).
Proof.
  unfold get_idle_seconds, query_idle_ms, bind, assert_display, ret.
  destruct (display_open w); [|reflexivity].
  destruct (idle_at w (tick w)); reflexivity.
Qed.

Lemma sleep_trace (s : R) (w : World) :
  trace (snd (sleep s w)) = EvSleep s :: trace w.
Proof. unfold sleep. destruct (interrupt_at w (tick w)); reflexivity. Qed.

(** One pass of the monitor's loop keeps the trace guarded. *)
Lemma monitor_iteration_guarded (fuel : nat) (thr : Z) (w w' : World)
    (out : outcome unit) :
  monitor_iteration fuel thr w = (out, w') ->
  saver_guarded thr (trace w) -> saver_guarded thr (trace w').
Proof.
  unfold monitor_iteration. unfold bind at 1. rewrite hotkey_step.
  intros E Hg.
  destruct (display_open w) eqn:Hd; [|injection E as <- <-; exact Hg].
  set (w1 := log (EvHotkey (hotkey_at w (tick w))) (bump w)) in *.
  assert (Hg1 : saver_guarded thr (trace w1)) by exact Hg.
  assert (Hd1 : display_open w1 = true) by exact Hd.
  destruct (hotkey_at w (tick w)); [injection E as <- <-; exact Hg1|].
  unfold bind at 1 in E. rewrite idle_seconds_step, Hd1 in E.
  destruct (idle_at w1 (tick w1)) as [ms|];
    [|injection E as <- <-; exact Hg1].
  set (w2 := log (EvQueryIdle ms) (bump w1)) in *.
  assert (Hg2 : saver_guarded thr (trace w2)) by exact Hg1.
  destruct (fge (IZR ms / 1000) (IZR thr)) eqn:Hthr.
  - apply fge_spec in Hthr. unfold bind in E.
    destruct (run_cursor_screensaver fuel 120 w2) as [r w3] eqn:Er.
    destruct (run_saver_trace fuel 120 w2 w3 r Er) as (_ & _ & _ & evs & Ht & Hp).
    assert (Hg3 : saver_guarded thr (trace w3)).
    { rewrite Ht. apply guarded_app_calm.
      - eapply Forall_impl; [|exact Hp]. intros e. apply frame_event_calm.
      - cbn [saver_guarded]. split; [|exact Hg2].
        change (trace w2) with (EvQueryIdle ms :: trace w1). exact Hthr. }
    destruct r as [u|e|]; try (injection E as <- <-; exact Hg3).
    pose proof (sleep_trace (25 / 100) w3) as Hs. rewrite E in Hs.
    cbn [snd] in Hs. rewrite Hs. now apply guarded_cons_calm.
  - pose proof (sleep_trace 1 w2) as Hs. rewrite E in Hs.
    cbn [snd] in Hs. rewrite Hs. now apply guarded_cons_calm.
Qed.

Lemma monitor_loop_guarded (fuel : nat) (thr : Z) (w w' : World)
    (out : outcome unit) :
  monitor_loop fuel thr w = (out, w') ->
  saver_guarded thr (trace w) -> saver_guarded thr (trace w').
Proof.
  revert w. induction fuel as [|fuel IH]; intros w; cbn [monitor_loop].
  - intros [= <- <-]. auto.
  - unfold bind at 1.
    destruct (monitor_iteration fuel thr w) as [r w1] eqn:Ei.
    pose proof (monitor_iteration_guarded fuel thr w w1 r Ei) as Hstep.
    destruct r as [u|e|].
    + intros E Hg. eapply IH; eauto.
    + intros [= <- <-]. exact Hstep.
    + intros [= <- <-]. exact Hstep.
Qed.

(** C6 (as amended). Inside monitor_idle_and_run, run_cursor_screensaver is
    entered only directly after an idle query whose answer in seconds is at
    least the threshold; and a pass of the monitor's loop that reads an idle
    time below the threshold only polls the hotkey, queries the idle time and
    sleeps one second.  (The animation burst that main starts at start-up is
    not covered.) *)
Theorem monitor_enters_saver_only_when_idle (fuel : nat) (thr : Z) (w : World) :
  (forall (w' : World) (out : outcome unit),
      monitor_idle_and_run fuel thr w = (out, w') ->
      saver_guarded thr (trace w) -> saver_guarded thr (trace w'))
  /\ (forall ms : Z,
         display_open w = true ->
         hotkey_at w (tick w) = false ->
         idle_at w (S (tick w)) = Some ms ->
         IZR ms / 1000 < IZR thr ->
         trace (snd (monitor_iteration fuel thr w))
         = EvSleep 1 :: EvQueryIdle ms :: EvHotkey false :: trace w).
Proof.
  split.
  - intros w' out E Hg.
    unfold monitor_idle_and_run, bind, emit, try_except in E.
    set (w0 := log (EvPrintArmed thr) w) in *.
    assert (Hg0 : saver_guarded thr (trace w0)) by exact Hg.
    destruct (monitor_loop fuel thr w0) as [r w1] eqn:El.
    pose proof (monitor_loop_guarded fuel thr w0 w1 r El Hg0) as Hg1.
    destruct r as [u|e|]; try (injection E as <- <-; exact Hg1).
    destruct (is_KeyboardInterrupt e); injection E as <- <-; exact Hg1.
  - intros ms Hd Hk Hi Hlow.
    unfold monitor_iteration. unfold bind at 1. rewrite hotkey_step, Hd, Hk.
    unfold bind at 1. rewrite idle_seconds_step.
    change (display_open (log (EvHotkey false) (bump w))) with (display_open w).
    change (idle_at (log (EvHotkey false) (bump w))
              (tick (log (EvHotkey false) (bump w))))
      with (idle_at w (S (tick w))).
    rewrite Hd, Hi.
    apply fge_false in Hlow. rewrite Hlow. apply sleep_trace.
Qed.

Lemma monitor_enters_saver_only_when_idle_witness :
  saver_guarded 600 (trace (snd (monitor_idle_and_run 2 600 world_idle)))
  /\ trace (snd (monitor_iteration 1 600 world_busy))
     = EvSleep 1 :: EvQueryIdle 0 :: EvHotkey false :: trace world_busy.
Proof.
  split.
  - destruct (monitor_enters_saver_only_when_idle 2 600 world_idle) as [H _].
    apply (H _ (fst (monitor_idle_and_run 2 600 world_idle)));
      [apply surjective_pairing|exact I].
  - destruct (monitor_enters_saver_only_when_idle 1 600 world_busy) as [_ H].
    apply H; try reflexivity. lra.
Defined.

Lemma main_trace :
  trace (snd (main 1 10 world_closed))
  = [EvClose; EvUndefineCursor true; EvUndefineCursor true; EvHotkey true;
     EvDefineCursor; EvQueryIdle 0; EvEnterSaver; EvOpen].
Proof. reflexivity. Qed.

(** C6 fails as stated: [main] enters the animation right after opening the
    display, before any idle query has been made. *)
Lemma main_animates_before_any_idle_query :
  (exists newer,
      trace (snd (main 1 10 world_closed)) = newer ++ [EvEnterSaver; EvOpen])
  /\ (forall thr, ~ saver_guarded thr (trace (snd (main 1 10 world_closed)))).
Proof.
  rewrite main_trace. split.
  - now exists [EvClose; EvUndefineCursor true; EvUndefineCursor true;
                EvHotkey true; EvDefineCursor; EvQueryIdle 0].
  - intros thr Hg. cbn [saver_guarded] in Hg. tauto.
Qed.

(** * Further properties of the program *)

(** ** clamp and the edge tests *)

(** X1. [clamp] returns a value between the bounds when they are ordered,
    returns its argument unchanged when that already lies between them, and
    returns the lower bound when the bounds are inverted. *)
Theorem clamp_cases (value min_value max_value : R) :
  (min_value <= max_value ->
   min_value <= clamp value min_value max_value <= max_value)
  /\ (min_value <= value <= max_value ->
      clamp value min_value max_value = value)
  /\ (max_value < min_value -> clamp value min_value max_value = min_value).
Proof.
  unfold clamp. split; [|split]; intros; float_cases; lra.
Qed.

Lemma clamp_cases_witness :
  0 <= clamp 7 0 5 <= 5 /\ clamp 3 0 5 = 3 /\ clamp 3 5 0 = 5.
Proof.
  destruct (clamp_cases 7 0 5) as (H1 & _ & _).
  destruct (clamp_cases 3 0 5) as (_ & H2 & _).
  destruct (clamp_cases 3 5 0) as (_ & _ & H3).
  split; [apply H1; lra|]. split; [apply H2; lra|apply H3; lra].
Defined.

(** X2. On a screen with at least one pixel per axis, the tests for opposite
    edges are never both true in the same frame. *)
Theorem opposite_edges_exclusive (width height : Z) (px py : R) :
  (1 <= width)%Z -> (1 <= height)%Z ->
  let h := edge_hits (bounds_of width height) px py in
  hit_left h && hit_right h = false /\ hit_top h && hit_bottom h = false.
Proof.
  intros Hw Hh h. subst h.
  assert (Hx : 0 <= IZR (width - 1)) by (apply (IZR_le 0); lia).
  assert (Hy : 0 <= IZR (height - 1)) by (apply (IZR_le 0); lia).
  unfold edge_hits, bounds_of.
  cbn [min_x min_y max_x max_y hit_left hit_right hit_top hit_bottom].
  split; apply andb_false_iff.
  - destruct (flt px 0) eqn:E; [right|now left].
    apply flt_spec in E. apply fgt_false. lra.
  - destruct (flt py 0) eqn:E; [right|now left].
    apply flt_spec in E. apply fgt_false. lra.
Qed.

Lemma opposite_edges_exclusive_witness :
  hit_left (edge_hits (bounds_of 1920 1080) (-3) 2000)
    && hit_right (edge_hits (bounds_of 1920 1080) (-3) 2000) = false.
Proof.
  destruct (opposite_edges_exclusive 1920 1080 (-3) 2000) as [H _]; [lia|lia|].
  exact H.
Defined.

Lemma edge_pass_fixed (b : Bounds) (px py : R) :
  min_x b <= px <= max_x b -> min_y b <= py <= max_y b ->
  edge_pass b px py = (px, py).
Proof.
  intros Hx Hy. unfold edge_pass, any_hit, edge_hits.
  cbn [hit_left hit_right hit_top hit_bottom].
  assert (E1 : flt px (min_x b) = false) by (apply flt_false; lra).
  assert (E2 : fgt px (max_x b) = false) by (apply fgt_false; lra).
  assert (E3 : flt py (min_y b) = false) by (apply flt_false; lra).
  assert (E4 : fgt py (max_y b) = false) by (apply fgt_false; lra).
  now rewrite E1, E2, E3, E4.
Qed.

(** X3. On a screen at least 2 pixels wide and high, the edge-resolution pass
    is idempotent: the position it produces hits no edge, so a second pass
    leaves it unchanged. *)
Theorem edge_pass_idempotent (width height : Z) (px py : R) :
  (2 <= width)%Z -> (2 <= height)%Z ->
  let b := bounds_of width height in
  any_hit (edge_hits b (fst (edge_pass b px py)) (snd (edge_pass b px py))) = false
  /\ edge_pass b (fst (edge_pass b px py)) (snd (edge_pass b px py))
     = edge_pass b px py.
Proof.
  intros Hw Hh b.
  destruct (edge_pass_inside width height px py Hw Hh) as [Hx Hy]. fold b in Hx, Hy.
  split.
  - unfold any_hit, edge_hits.
    cbn [hit_left hit_right hit_top hit_bottom].
    assert (E1 : flt (fst (edge_pass b px py)) (min_x b) = false)
      by (apply flt_false; lra).
    assert (E2 : fgt (fst (edge_pass b px py)) (max_x b) = false)
      by (apply fgt_false; lra).
    assert (E3 : flt (snd (edge_pass b px py)) (min_y b) = false)
      by (apply flt_false; lra).
    assert (E4 : fgt (snd (edge_pass b px py)) (max_y b) = false)
      by (apply fgt_false; lra).
    now rewrite E1, E2, E3, E4.
  - rewrite edge_pass_fixed by assumption. symmetry. apply surjective_pairing.
Qed.

Lemma edge_pass_idempotent_witness :
  edge_pass (bounds_of 1920 1080)
    (fst (edge_pass (bounds_of 1920 1080) 2000 (-4)))
    (snd (edge_pass (bounds_of 1920 1080) 2000 (-4)))
  = edge_pass (bounds_of 1920 1080) 2000 (-4).
Proof.
  destruct (edge_pass_idempotent 1920 1080 2000 (-4)) as [_ H]; [lia|lia|].
  exact H.
Defined.

(** ** Bounces off a single wall *)

(** The candidate opposite to the previous handedness passes the
    anti-reversal test when the previous velocity is close to a diagonal. *)
Lemma flipped_candidate_passes (comp pvx pvy h : R) :
  0 < comp -> is_sign h ->
  Rabs (Rabs pvx - Rabs pvy) < 2 / 10 * hypot pvx pvy ->
  reverses comp pvx pvy (hypot pvx pvy)
    (h * comp) (- (signf pvy / signf pvx) * h * comp) = false.
Proof.
  intros Hc Hh Hclose.
  apply reverses_false_iff; [exact Hc|apply hypot_nonneg|right].
  rewrite <- handed_difference in Hclose.
  apply Rabs_def2 in Hclose. destruct Hclose as [Hlo Hhi].
  set (sp := signf pvy / signf pvx) in *.
  replace (pvx * (h * comp) + pvy * (- sp * h * comp))
    with (h * (pvx - sp * pvy) * comp) by ring.
  destruct Hh as [->| ->]; nra.
Qed.

(** X4. Side wall.  When only the left or only the right wall is hit and the
    previous velocity is clearly diagonal (component magnitudes equal, or
    magnitude at least 10 with component magnitudes within 1 or within 4% of
    the magnitude of each other) and points into that wall, the call returns
    the mirror image: [vx] points away from the wall, [vy] keeps the sign it
    had, and nothing is drawn from the random source. *)
Theorem side_wall_reflects (speed_mag pvx pvy : R) (hl hr : bool) (g : Rng) :
  xorb hl hr = true ->
  (hl = true -> pvx < 0) -> (hr = true -> 0 < pvx) ->
  clearly_diagonal pvx pvy ->
  pick_diagonal_velocity speed_mag hl hr false false pvx pvy g
  = ((- signf pvx * comp_of speed_mag, signf pvy * comp_of speed_mag), g).
Proof.
  intros Hwall Hleft Hright Hdiag.
  pose proof (comp_of_pos speed_mag) as Hc.
  destruct (clearly_diagonal_near pvx pvy Hdiag) as (Heps & Hnear & Hten).
  assert (Hclose : Rabs (Rabs pvx - Rabs pvy) < 2 / 10 * hypot pvx pvy)
    by (unfold eps_speed in Heps; lra).
  set (sp := signf pvy / signf pvx).
  assert (Hsp : is_sign sp) by (apply sign_div; apply signf_sign).
  assert (Hwx : wall_sign hl hr = Some (- signf pvx)).
  { unfold wall_sign, signf. destruct hl, hr; try discriminate.
    - specialize (Hleft eq_refl). unfold fge.
      destruct (Rle_dec 0 pvx); [lra|]. f_equal; lra.
    - specialize (Hright eq_refl). unfold fge.
      destruct (Rle_dec 0 pvx); [reflexivity|lra]. }
  assert (Hh : is_sign (- signf pvx)).
  { destruct (signf_sign pvx) as [->| ->]; unfold is_sign; lra. }
  unfold pick_diagonal_velocity, search.
  rewrite (prev_handedness_some pvx pvy Heps Hnear). fold sp.
  change 16%nat with (S 15).
  erewrite search_first_accept; [|exact Hsp|].
  - reflexivity.
  - unfold try_candidate, propose. rewrite Hwx. cbn [wall_sign].
    pose proof (flipped_candidate_passes _ pvx pvy (- signf pvx) Hc Hh Hclose)
      as Hrev.
    fold sp in Hrev. rewrite Hrev.
    f_equal. f_equal. f_equal. unfold sp.
    rewrite (sign_div_mul _ _ (signf_sign pvx)).
    destruct (signf_sign pvx) as [->| ->]; ring.
Qed.

Lemma side_wall_reflects_witness :
  pick_diagonal_velocity 300 false true false false 200 (-200) rng0
  = ((- signf 200 * comp_of 300, signf (-200) * comp_of 300), rng0).
Proof.
  apply side_wall_reflects.
  - reflexivity.
  - discriminate.
  - intros _. lra.
  - left. rewrite (Rabs_pos_eq 200), (Rabs_left (-200)) by lra.
    split; [ring|unfold eps_speed; lra].
Defined.

(** X5. Top or bottom wall.  When only the top or only the bottom wall is
    hit and the previous velocity is clearly diagonal (component magnitudes
    equal, or magnitude at least 10 with component magnitudes within 1 or
    within 4% of the magnitude of each other) and points into that wall, the
    call returns the mirror image: [vy] points away from the wall, [vx] keeps
    the sign it had, and nothing is drawn from the random source. *)
Theorem floor_wall_reflects (speed_mag pvx pvy : R) (ht hb : bool) (g : Rng) :
  xorb ht hb = true ->
  (ht = true -> pvy < 0) -> (hb = true -> 0 < pvy) ->
  clearly_diagonal pvx pvy ->
  pick_diagonal_velocity speed_mag false false ht hb pvx pvy g
  = ((signf pvx * comp_of speed_mag, - signf pvy * comp_of speed_mag), g).
Proof.
  intros Hwall Htop Hbot Hdiag.
  pose proof (comp_of_pos speed_mag) as Hc.
  destruct (clearly_diagonal_near pvx pvy Hdiag) as (Heps & Hnear & Hten).
  assert (Hclose : Rabs (Rabs pvx - Rabs pvy) < 2 / 10 * hypot pvx pvy)
    by (unfold eps_speed in Heps; lra).
  set (sp := signf pvy / signf pvx).
  assert (Hsp : is_sign sp) by (apply sign_div; apply signf_sign).
  assert (Hwy : wall_sign ht hb = Some (- signf pvy)).
  { unfold wall_sign, signf. destruct ht, hb; try discriminate.
    - specialize (Htop eq_refl). unfold fge.
      destruct (Rle_dec 0 pvy); [lra|]. f_equal; lra.
    - specialize (Hbot eq_refl). unfold fge.
      destruct (Rle_dec 0 pvy); [reflexivity|lra]. }
  assert (Hh : is_sign (signf pvx)) by apply signf_sign.
  assert (Hx : - signf pvy / - sp = signf pvx).
  { unfold sp. rewrite (sign_div_mul _ _ (signf_sign pvx)).
    destruct (signf_sign pvx) as [->| ->], (signf_sign pvy) as [->| ->]; field. }
  assert (Hy : - signf pvy = - sp * signf pvx).
  { unfold sp. rewrite (sign_div_mul _ _ (signf_sign pvx)).
    destruct (signf_sign pvx) as [->| ->]; ring. }
  unfold pick_diagonal_velocity, search.
  rewrite (prev_handedness_some pvx pvy Heps Hnear). fold sp.
  change 16%nat with (S 15).
  erewrite search_first_accept; [|exact Hsp|].
  - reflexivity.
  - unfold try_candidate, propose. rewrite Hwy. cbn [wall_sign].
    rewrite Hx.
    pose proof (flipped_candidate_passes _ pvx pvy (signf pvx) Hc Hh Hclose)
      as Hrev.
    fold sp in Hrev. rewrite <- Hy in Hrev. now rewrite Hrev.
Qed.

Lemma floor_wall_reflects_witness :
  pick_diagonal_velocity 300 false false false true 200 200 rng0
  = ((signf 200 * comp_of 300, - signf 200 * comp_of 300), rng0).
Proof.
  apply floor_wall_reflects.
  - reflexivity.
  - discriminate.
  - intros _. lra.
  - left. rewrite (Rabs_pos_eq 200) by lra.
    split; [reflexivity|unfold eps_speed; lra].
Defined.

(** ** Calls without a previous velocity *)

Lemma try_candidate_slow (comp : R) (hl hr ht hb : bool) (pvx pvy ps s : R)
    (g : Rng) :
  ps <= eps_speed ->
  try_candidate comp hl hr ht hb pvx pvy ps s g
  = match propose hl hr ht hb s g with
    | (Some (a, b), g') => (Some (a * comp, b * comp), g')
    | (None, g') => (None, g')
    end.
Proof.
  intros Hslow. unfold try_candidate.
  destruct (propose hl hr ht hb s g) as [[[a b]|] g']; [|reflexivity].
  unfold reverses. apply fgt_false in Hslow. now rewrite Hslow.
Qed.

Lemma propose_free_axis (hl hr ht hb : bool) (s : R) (g : Rng) :
  wall_sign hl hr = None \/ wall_sign ht hb = None ->
  exists a b g',
    propose hl hr ht hb s g = (Some (a, b), g') /\ spent g g' 1.
Proof.
  intros Hfree. unfold propose.
  destruct (wall_sign hl hr) as [hx|], (wall_sign ht hb) as [hy|].
  - destruct Hfree; discriminate.
  - eexists _, _, _. split; [reflexivity|apply spent_refl].
  - eexists _, _, _. split; [reflexivity|apply spent_refl].
  - destruct (choice_split g) as [x ->].
    eexists _, _, _. split; [reflexivity|].
    unfold spent. rewrite cursor_advance. lia.
Qed.

Lemma propose_corner_match (hl hr ht hb : bool) (hx hy : R) (g : Rng) :
  wall_sign hl hr = Some hx -> wall_sign ht hb = Some hy ->
  propose hl hr ht hb (hy / hx) g = (Some (hx, hy), g).
Proof.
  intros Hx Hy. unfold propose. rewrite Hx, Hy.
  assert (E : fgt (Rabs (hy / hx - hy / hx)) (1 / 10) = false).
  { apply fgt_false. rewrite Rminus_diag, Rabs_R0. lra. }
  now rewrite E.
Qed.

Lemma slow_pair_found (comp : R) (hl hr ht hb : bool) (pvx pvy ps a b : R)
    (g : Rng) :
  ps <= eps_speed -> is_sign a -> is_sign b -> a <> b ->
  exists v g',
    for_candidates comp hl hr ht hb pvx pvy ps [a; b] g = (Some v, g')
    /\ spent g g' 1.
Proof.
  intros Hslow Ha Hb Hab. cbn [for_candidates].
  destruct (wall_sign hl hr) as [hx|] eqn:Ex;
    [destruct (wall_sign ht hb) as [hy|] eqn:Ey|].
  - assert (Hq : is_sign (hy / hx))
      by (apply sign_div; eapply wall_sign_sign; eauto).
    destruct (Req_dec_T a (hy / hx)) as [->|Hne].
    + rewrite try_candidate_slow, (propose_corner_match _ _ _ _ hx hy)
        by assumption.
      eexists _, _. split; [reflexivity|apply spent_refl].
    + rewrite (corner_mismatch_rejected comp hl hr ht hb pvx pvy ps hx hy
                 Ex Ey a g Ha Hne).
      assert (b = hy / hx) as ->.
      { destruct Ha as [->| ->], Hb as [->| ->], Hq as [Hq|Hq];
          rewrite Hq in *; congruence. }
      rewrite try_candidate_slow, (propose_corner_match _ _ _ _ hx hy)
        by assumption.
      eexists _, _. split; [reflexivity|apply spent_refl].
  - destruct (propose_free_axis hl hr ht hb a g) as (x & y & g' & Hp & Hs);
      [now right|].
    rewrite try_candidate_slow, Hp by assumption.
    eexists _, _. split; [reflexivity|exact Hs].
  - destruct (propose_free_axis hl hr ht hb a g) as (x & y & g' & Hp & Hs);
      [now left|].
    rewrite try_candidate_slow, Hp by assumption.
    eexists _, _. split; [reflexivity|exact Hs].
Qed.

(** X6. When the previous speed is at most 1e-6 (in particular on the first
    call, whose previous velocity is (0, 0)), the first round of the search
    already returns, whatever edges are hit: the fallback is not reached and
    at most two draws are taken from the random source. *)
Theorem slow_previous_first_round (speed_mag : R) (hl hr ht hb : bool)
    (pvx pvy : R) (g : Rng) :
  hypot pvx pvy <= eps_speed ->
  exists v g',
    search speed_mag hl hr ht hb pvx pvy g = (Some v, g')
    /\ pick_diagonal_velocity speed_mag hl hr ht hb pvx pvy g = (v, g')
    /\ spent g g' 2.
Proof.
  intros Hslow.
  assert (Hnone : prev_handedness pvx pvy = None).
  { unfold prev_handedness. apply fgt_false in Hslow. now rewrite Hslow. }
  assert (Hround : exists v g',
             search speed_mag hl hr ht hb pvx pvy g = (Some v, g')
             /\ spent g g' 2).
  { unfold search. rewrite Hnone. change 16%nat with (S 15).
    cbn [search_rounds round_candidates].
    destruct (shuffle_pair g) as [Hl Hg].
    destruct (shuffle [1; -1] g) as [cands g1]. cbn [fst snd] in Hl, Hg. subst g1.
    assert (Hfound : exists v g',
               for_candidates (comp_of speed_mag) hl hr ht hb pvx pvy
                 (hypot pvx pvy) cands (advance g) = (Some v, g')
               /\ spent (advance g) g' 1).
    { destruct Hl as [->| ->]; apply slow_pair_found; try assumption;
        unfold is_sign; try lra; auto. }
    destruct Hfound as (v & g' & Hf & Hs). rewrite Hf.
    exists v, g'. split; [reflexivity|].
    unfold spent in *. rewrite cursor_advance in Hs. lia. }
  destruct Hround as (v & g' & Hs & Hcost).
  exists v, g'. split; [exact Hs|]. split; [|exact Hcost].
  unfold pick_diagonal_velocity. now rewrite Hs.
Qed.

Lemma slow_previous_first_round_witness :
  exists v g',
    search 500 false false false false 0 0 rng0 = (Some v, g')
    /\ pick_diagonal_velocity 500 false false false false 0 0 rng0 = (v, g')
    /\ spent rng0 g' 2.
Proof.
  apply slow_previous_first_round.
  unfold hypot. replace (0 * 0 + 0 * 0) with 0 by ring. rewrite sqrt_0.
  unfold eps_speed. lra.
Defined.

(** ** One frame of the animation *)

Lemma query_idle_step (w : World) :
  query_idle_ms w
  = if display_open w
    then match idle_at w (tick w) with
         | Some ms => (Done ms, log (EvQueryIdle ms) (bump w))
         | None => (Raised OSError, log EvQueryIdleFailed (bump w))
         end
    else (Raised AssertionError, w).
Proof.
  unfold query_idle_ms, bind, assert_display.
  destruct (display_open w); reflexivity.
Qed.

Lemma set_cursor_pos_step (x y : Z) (w : World) :
  set_cursor_pos x y w
  = if display_open w
    then (Done tt, log (EvSetCursorPos x y) (set_pointer (x, y) w))
    else (Raised AssertionError, w).
Proof.
  unfold set_cursor_pos, bind, assert_display.
  destruct (display_open w); reflexivity.
Qed.

(** What a frame that goes on to the next one has done. *)
Lemma frame_continues (b : Bounds) (frame_dt : R) (st st' : Anim) (w w' : World) :
  frame b frame_dt st w = (Done (Some st'), w') ->
  exists (ms : Z) (now : R) (g : Rng),
    let dt := py_max 0 (py_min (5 / 100) (now - prev_t st)) in
    let px := pos_x st + vel_x st * dt in
    let py := pos_y st + vel_y st * dt in
    let h := edge_hits b px py in
    idle_at w (S (tick w)) = Some ms
    /\ (ms + 50 <? idle_prev_ms st)%Z = false
    /\ idle_prev_ms st' = ms /\ prev_t st' = now
    /\ (pos_x st', pos_y st') = edge_pass b px py
    /\ (vel_x st', vel_y st')
       = (if any_hit h
          then fst (pick_diagonal_velocity
                      (py_max 150 (hypot (vel_x st) (vel_y st)))
                      (hit_left h) (hit_right h) (hit_top h) (hit_bottom h)
                      (vel_x st) (vel_y st) g)
          else (vel_x st, vel_y st))
    /\ pointer w' = (py_round (pos_x st'), py_round (pos_y st'))
    /\ trace w'
       = EvSleep frame_dt :: EvSetCursorPos (py_round (pos_x st')) (py_round (pos_y st'))
           :: EvQueryIdle ms :: EvHotkey false :: trace w.
Proof.
  unfold frame. unfold bind at 1. rewrite hotkey_step.
  destruct (display_open w) eqn:Hd; [|discriminate].
  destruct (hotkey_at w (tick w)); [discriminate|].
  set (w1 := log (EvHotkey false) (bump w)).
  unfold bind at 1. rewrite query_idle_step.
  change (display_open w1) with (display_open w). rewrite Hd.
  change (idle_at w1 (tick w1)) with (idle_at w (S (tick w))).
  destruct (idle_at w (S (tick w))) as [ms|] eqn:Hi; [|discriminate].
  set (w2 := log (EvQueryIdle ms) (bump w1)).
  destruct (ms + 50 <? idle_prev_ms st)%Z eqn:Edrop; [discriminate|].
  unfold bind at 1. unfold perf_counter at 1.
  set (now := clock_at w2 (tick w2)). set (w3 := bump w2). cbv zeta.
  set (dt := py_max 0 (py_min (5 / 100) (now - prev_t st))).
  set (px := pos_x st + vel_x st * dt). set (py := pos_y st + vel_y st * dt).
  set (h := edge_hits b px py).
  intros E. exists ms, now, (rng w3). cbv zeta. fold dt px py h.
  unfold edge_pass. fold h.
  destruct (any_hit h).
  - unfold bind at 1 2 in E. unfold lift_rng at 1 in E. unfold ret at 1 in E.
    cbn [fst snd] in E.
    unfold bind at 1 in E. rewrite set_cursor_pos_step in E.
    change (display_open (set_rng _ w3)) with (display_open w) in E.
    rewrite Hd in E.
    unfold bind at 1 in E. unfold sleep at 1 in E.
    destruct (interrupt_at _ _); [discriminate|].
    unfold ret in E. injection E as <- <-. cbn [idle_prev_ms prev_t pos_x pos_y vel_x vel_y].
    split; [reflexivity|].
    repeat (split; [first [reflexivity | exact Edrop | symmetry; apply surjective_pairing]|]).
    reflexivity.
  - unfold bind at 1 in E. unfold ret at 1 in E. cbn [fst snd] in E.
    unfold bind at 1 in E. rewrite set_cursor_pos_step in E.
    change (display_open w3) with (display_open w) in E.
    rewrite Hd in E.
    unfold bind at 1 in E. unfold sleep at 1 in E.
    destruct (interrupt_at _ _); [discriminate|].
    unfold ret in E. injection E as <- <-. cbn [idle_prev_ms prev_t pos_x pos_y vel_x vel_y].
    split; [reflexivity|].
    repeat (split; [first [reflexivity | exact Edrop]|]).
    reflexivity.
Qed.

(** What a frame that leaves the loop by [break] has done. *)
Lemma frame_breaks (b : Bounds) (frame_dt : R) (st : Anim) (w w' : World) :
  frame b frame_dt st w = (Done None, w') ->
  exists ms : Z,
    idle_at w (S (tick w)) = Some ms
    /\ (ms + 50 <? idle_prev_ms st)%Z = true
    /\ w' = log (EvQueryIdle ms) (bump (log (EvHotkey false) (bump w))).
Proof.
  unfold frame. unfold bind at 1. rewrite hotkey_step.
  destruct (display_open w) eqn:Hd; [|discriminate].
  destruct (hotkey_at w (tick w)); [discriminate|].
  set (w1 := log (EvHotkey false) (bump w)).
  unfold bind at 1. rewrite query_idle_step.
  change (display_open w1) with (display_open w). rewrite Hd.
  change (idle_at w1 (tick w1)) with (idle_at w (S (tick w))).
  destruct (idle_at w (S (tick w))) as [ms|]; [|discriminate].
  destruct (ms + 50 <? idle_prev_ms st)%Z eqn:Edrop.
  - intros [= <-]. now exists ms.
  - unfold bind at 1. unfold perf_counter at 1. cbv zeta.
    match goal with
    | |- context [if ?c then _ else _] => destruct c
    end.
    + unfold bind at 1 2. unfold lift_rng at 1. unfold ret at 1. cbn [fst snd].
      unfold bind at 1. rewrite set_cursor_pos_step.
      match goal with
      | |- context [display_open ?x] =>
          change (display_open x) with (display_open w)
      end.
      rewrite Hd. unfold bind at 1. unfold sleep at 1.
      destruct (interrupt_at _ _); discriminate.
    + unfold bind at 1. unfold ret at 1. cbn [fst snd].
      unfold bind at 1. rewrite set_cursor_pos_step.
      match goal with
      | |- context [display_open ?x] =>
          change (display_open x) with (display_open w)
      end.
      rewrite Hd. unfold bind at 1. unfold sleep at 1.
      destruct (interrupt_at _ _); discriminate.
Qed.

(** X7. A frame ends the loop by [break] exactly when the idle time it reads
    is more than 50 ms below the previous reading; such a frame does not
    read the clock, does not move the pointer and does not sleep. *)
Theorem frame_breaks_on_idle_drop (b : Bounds) (frame_dt : R) (st : Anim)
    (w w' : World) (r : option Anim) :
  frame b frame_dt st w = (Done r, w') ->
  exists ms : Z,
    idle_at w (S (tick w)) = Some ms
    /\ (r = None <-> (ms + 50 < idle_prev_ms st)%Z)
    /\ (r = None ->
        pointer w' = pointer w
        /\ tick w' = S (S (tick w))
        /\ trace w' = EvQueryIdle ms :: EvHotkey false :: trace w).
Proof.
  intros E. destruct r as [st'|].
  - destruct (frame_continues b frame_dt st st' w w' E)
      as (ms & now & g & Hi & Edrop & _).
    exists ms. split; [exact Hi|]. split; [|discriminate].
    split; [discriminate|]. apply Z.ltb_ge in Edrop. lia.
  - destruct (frame_breaks b frame_dt st w w' E) as (ms & Hi & Edrop & ->).
    exists ms. split; [exact Hi|]. apply Z.ltb_lt in Edrop.
    split; [tauto|]. intros _. repeat split.
Qed.

Lemma frame_breaks_on_idle_drop_witness :
  exists ms : Z,
    idle_at world_busy (S (tick world_busy)) = Some ms
    /\ (fst (frame (bounds_of 1920 1080) (1 / 120) (mkAnim 10 10 1 1 1000 0)
               world_busy) = Done None
        -> pointer (snd (frame (bounds_of 1920 1080) (1 / 120)
                           (mkAnim 10 10 1 1 1000 0) world_busy))
           = pointer world_busy).
Proof.
  destruct (frame_breaks_on_idle_drop (bounds_of 1920 1080) (1 / 120)
              (mkAnim 10 10 1 1 1000 0) world_busy
              (snd (frame (bounds_of 1920 1080) (1 / 120)
                      (mkAnim 10 10 1 1 1000 0) world_busy)) None)
    as (ms & Hi & _ & H).
  - reflexivity.
  - exists ms. split; [exact Hi|]. intros _. now apply H.
Defined.


Lemma bind_done {A B : Type} (c : M A) (k : A -> M B) (w w1 : World) (a : A) :
  c w = (Done a, w1) -> bind c k w = k a w1.
Proof. intros E. unfold bind. now rewrite E. Qed.

(** A frame goes on to the next one when no quit key is pending, the idle
    time has not dropped and no interrupt arrives during its sleep. *)
Lemma frame_runs (b : Bounds) (frame_dt : R) (st : Anim) (w : World) (ms : Z) :
  display_open w = true ->
  hotkey_at w (tick w) = false ->
  idle_at w (S (tick w)) = Some ms ->
  (ms + 50 <? idle_prev_ms st)%Z = false ->
  interrupt_at w (S (S (S (tick w)))) = false ->
  exists st' w', frame b frame_dt st w = (Done (Some st'), w').
Proof.
  intros Hd Hk Hi Edrop Hint.
  set (w1 := log (EvHotkey false) (bump w)).
  set (w2 := log (EvQueryIdle ms) (bump w1)).
  assert (H1 : hotkey_quit_pressed w = (Done false, w1))
    by (rewrite hotkey_step, Hd, Hk; reflexivity).
  assert (H2 : query_idle_ms w1 = (Done ms, w2)).
  { rewrite query_idle_step.
    change (display_open w1) with (display_open w).
    change (idle_at w1 (tick w1)) with (idle_at w (S (tick w))).
    now rewrite Hd, Hi. }
  assert (H3 : perf_counter w2 = (Done (clock_at w2 (tick w2)), bump w2))
    by reflexivity.
  assert (Hset : forall x y w4,
             display_open w4 = true -> interrupt_at w4 (tick w4) = false ->
             forall a : Anim,
               (set_cursor_pos x y ;;; sleep frame_dt ;;; ret (Some a)) w4
               = (Done (Some a),
                  log (EvSleep frame_dt)
                    (bump (log (EvSetCursorPos x y) (set_pointer (x, y) w4))))).
  { intros x y w4 Hd4 Hi4 a.
    erewrite bind_done; [|rewrite set_cursor_pos_step, Hd4; reflexivity].
    erewrite bind_done; [reflexivity|].
    unfold sleep.
    change (interrupt_at (log (EvSetCursorPos x y) (set_pointer (x, y) w4))
              (tick (log (EvSetCursorPos x y) (set_pointer (x, y) w4))))
      with (interrupt_at w4 (tick w4)).
    now rewrite Hi4. }
  unfold frame.
  rewrite (bind_done _ _ _ _ _ H1).
  rewrite (bind_done _ _ _ _ _ H2). rewrite Edrop.
  rewrite (bind_done _ _ _ _ _ H3). cbv zeta.
  match goal with
  | |- context [if ?c then _ else _] => destruct c
  end.
  - erewrite bind_done;
      [|erewrite bind_done; [reflexivity|reflexivity]].
    cbn [fst snd]. rewrite Hset; [eexists _, _; reflexivity|exact Hd|exact Hint].
  - erewrite bind_done; [|reflexivity].
    cbn [fst snd]. rewrite Hset; [eexists _, _; reflexivity|exact Hd|exact Hint].
Qed.

Lemma frame_runs_busy :
  exists st' w',
    frame (bounds_of 1920 1080) (1 / 120) (mkAnim 10 10 300 300 0 0) world_busy
    = (Done (Some st'), w').
Proof. now apply (frame_runs _ _ _ world_busy 0%Z). Qed.


(** X9. The time step a frame integrates over is the measured clock
    difference clamped to [0, 0.05]: whatever the clock does (a long stall,
    a step backwards), the frame moves the position by the velocity times a
    step between 0 and 50 ms that does not exceed the elapsed time, and then
    applies one edge-resolution pass. *)
Theorem frame_step_clamped (b : Bounds) (frame_dt : R) (st st' : Anim)
    (w w' : World) :
  frame b frame_dt st w = (Done (Some st'), w') ->
  exists dt : R,
    0 <= dt <= 5 / 100
    /\ dt <= Rmax 0 (prev_t st' - prev_t st)
    /\ (pos_x st', pos_y st')
       = edge_pass b (pos_x st + vel_x st * dt) (pos_y st + vel_y st * dt).
Proof.
  intros E.
  destruct (frame_continues b frame_dt st st' w w' E)
    as (ms & now & g & _ & _ & _ & Hnow & Hp & _).
  cbv zeta in Hp. rewrite Hnow.
  exists (py_max 0 (py_min (5 / 100) (now - prev_t st))).
  split; [|split; [|exact Hp]].
  - float_cases; lra.
  - unfold Rmax. destruct (Rle_dec 0 (now - prev_t st)); float_cases; lra.
Qed.

Lemma frame_step_clamped_witness :
  exists st' w' dt,
    frame (bounds_of 1920 1080) (1 / 120) (mkAnim 10 10 300 300 0 0) world_busy
    = (Done (Some st'), w')
    /\ 0 <= dt <= 5 / 100
    /\ (pos_x st', pos_y st')
       = edge_pass (bounds_of 1920 1080) (10 + 300 * dt) (10 + 300 * dt).
Proof.
  destruct frame_runs_busy as (st' & w' & E).
  destruct (frame_step_clamped _ _ _ _ _ _ E) as (dt & Hdt & _ & Hp).
  exists st', w', dt. split; [exact E|]. split; [exact Hdt|exact Hp].
Defined.

Lemma py_round_near (x : R) : Rabs (IZR (py_round x) - x) <= 1 / 2.
Proof.
  unfold py_round. pose proof (Zfloor_bound x) as [Hf1 Hf2].
  destruct (flt (x - IZR (Zfloor x)) (1 / 2)) eqn:E1.
  - apply flt_spec in E1. apply Rabs_le. lra.
  - apply flt_false in E1.
    destruct (fgt (x - IZR (Zfloor x)) (1 / 2)) eqn:E2.
    + rewrite plus_IZR. apply Rabs_le. lra.
    + apply fgt_false in E2.
      destruct (Z.even (Zfloor x)); rewrite ?plus_IZR; apply Rabs_le; lra.
Qed.

(** X10. After a frame that goes on, the pointer is where the frame wrote it:
    at the integer position nearest to the animated position, at most half a
    pixel away on each axis. *)
Theorem frame_pointer_follows (b : Bounds) (frame_dt : R) (st st' : Anim)
    (w w' : World) :
  frame b frame_dt st w = (Done (Some st'), w') ->
  pointer w' = (py_round (pos_x st'), py_round (pos_y st'))
  /\ Rabs (IZR (fst (pointer w')) - pos_x st') <= 1 / 2
  /\ Rabs (IZR (snd (pointer w')) - pos_y st') <= 1 / 2.
Proof.
  intros E.
  destruct (frame_continues b frame_dt st st' w w' E)
    as (ms & now & g & _ & _ & _ & _ & _ & _ & Hptr & _).
  rewrite Hptr. cbn [fst snd].
  split; [reflexivity|]. split; apply py_round_near.
Qed.

Lemma frame_pointer_follows_witness :
  exists st' w',
    frame (bounds_of 1920 1080) (1 / 120) (mkAnim 10 10 300 300 0 0) world_busy
    = (Done (Some st'), w')
    /\ pointer w' = (py_round (pos_x st'), py_round (pos_y st')).
Proof.
  destruct frame_runs_busy as (st' & w' & E).
  exists st', w'. split; [exact E|].
  now destruct (frame_pointer_follows _ _ _ _ _ _ E) as [H _].
Defined.

(** X11. A pending quit key ends the process at the poll that opens a pass
    of either loop: the animation frame and the monitor's pass both raise
    SystemExit(0) having done nothing but the poll (no idle query, no pointer
    write, no sleep). *)
Theorem quit_key_exits_at_poll (b : Bounds) (frame_dt : R) (st : Anim)
    (fuel : nat) (thr : Z) (w : World) :
  display_open w = true ->
  hotkey_at w (tick w) = true ->
  frame b frame_dt st w = (Raised (SystemExit 0), log (EvHotkey true) (bump w))
  /\ monitor_iteration fuel thr w
     = (Raised (SystemExit 0), log (EvHotkey true) (bump w)).
Proof.
  intros Hd Hk.
  assert (H1 : hotkey_quit_pressed w = (Done true, log (EvHotkey true) (bump w)))
    by (rewrite hotkey_step, Hd, Hk; reflexivity).
  split.
  - unfold frame. now rewrite (bind_done _ _ _ _ _ H1).
  - unfold monitor_iteration. now rewrite (bind_done _ _ _ _ _ H1).
Qed.

Lemma quit_key_exits_at_poll_witness :
  frame (bounds_of 1920 1080) (1 / 120) (mkAnim 10 10 300 300 0 0) world_quit
  = (Raised (SystemExit 0), log (EvHotkey true) (bump world_quit))
  /\ monitor_iteration 5 600 world_quit
     = (Raised (SystemExit 0), log (EvHotkey true) (bump world_quit)).
Proof. apply quit_key_exits_at_poll; reflexivity. Defined.

(** ** The display session *)

Lemma bind_raised {A B : Type} (c : M A) (k : A -> M B) (w w1 : World) (e : exn) :
  c w = (Raised e, w1) -> bind c k w = (Raised e, w1).
Proof. intros E. unfold bind. now rewrite E. Qed.

Lemma bind_running {A B : Type} (c : M A) (k : A -> M B) (w w1 : World) :
  c w = (Running, w1) -> bind c k w = (Running, w1).
Proof. intros E. unfold bind. now rewrite E. Qed.

(** X12. [close] never raises, even when the X call that restores the cursor
    fails; it leaves the session closed, does nothing on a session that is
    already closed, and on an open one its last action is the closing of the
    display. *)
Theorem close_always_succeeds (w : World) :
  exists w',
    xc_close w = (Done tt, w')
    /\ display_open w' = false
    /\ (display_open w = false -> w' = w)
    /\ (display_open w = true ->
        exists ok, trace w' = EvClose :: EvUndefineCursor ok :: trace w).
Proof.
  unfold xc_close. destruct (display_open w) eqn:Hd; cbn [negb].
  - unfold bind, try_except, x_undefine_cursor, emit, ret.
    destruct (xfail_at w (tick w)); cbn [is_Exception];
      eexists; (split; [reflexivity|]); (split; [reflexivity|]);
      (split; [discriminate|]); intros _; eexists; reflexivity.
  - exists w. split; [reflexivity|]. split; [exact Hd|].
    split; [reflexivity|discriminate].
Qed.

(** X13. [open] is idempotent and all-or-nothing: after a successful call the
    session is open and a further call changes nothing; a failed call raises
    OSError and leaves the context untouched and closed. *)
Theorem open_idempotent (w w1 : World) (out : outcome unit) :
  xc_open w = (out, w1) ->
  (out = Done tt /\ display_open w1 = true /\ xc_open w1 = (Done tt, w1))
  \/ (out = Raised OSError /\ w1 = w /\ display_open w = false
      /\ can_open w = false).
Proof.
  unfold xc_open at 1. destruct (display_open w) eqn:Hd.
  - intros [= <- <-]. left. split; [reflexivity|]. split; [exact Hd|].
    unfold xc_open. now rewrite Hd.
  - destruct (can_open w) eqn:Hc; intros [= <- <-].
    + left. split; [reflexivity|]. split; [reflexivity|]. reflexivity.
    + right. auto.
Qed.

Lemma open_idempotent_witness :
  xc_open (snd (xc_open world_closed)) = (Done tt, snd (xc_open world_closed)).
Proof.
  destruct (open_idempotent world_closed (snd (xc_open world_closed))
              (fst (xc_open world_closed)) (surjective_pairing _))
    as [(_ & _ & H)|(H & _)]; [exact H|discriminate H].
Defined.

Lemma close_always_succeeds_witness :
  exists w',
    xc_close world_xfail = (Done tt, w')
    /\ display_open w' = false
    /\ exists ok, trace w' = EvClose :: EvUndefineCursor ok :: trace world_xfail.
Proof.
  destruct (close_always_succeeds world_xfail) as (w' & H1 & H2 & _ & H4).
  exists w'. split; [exact H1|]. split; [exact H2|]. now apply H4.
Defined.

(** ** Events of any kind *)

Lemma triple_any_events (W H : Z) {A : Type} (P : event -> Prop) (c : M A)
    (Q : A -> Prop) :
  triple W H P c Q -> triple W H (fun _ => True) c Q.
Proof.
  intros Hc w out w' Hw Hh E.
  destruct (Hc w out w' Hw Hh E) as [(Hd & Hsw & Hsh & evs & Ht & _) Hq].
  split; [|exact Hq].
  unfold evolves. do 3 (split; [assumption|]).
  exists evs. split; [exact Ht|]. apply Forall_forall. auto.
Qed.

Lemma triple_run_saver (W H : Z) (fuel : nat) (fps : R) :
  triple W H (fun _ => True) (run_cursor_screensaver fuel fps) (fun _ => True).
Proof.
  unfold run_cursor_screensaver.
  eapply triple_bind; [now apply triple_emit|]. intros _ _.
  eapply triple_any_events. apply triple_saver_body.
Qed.

Lemma triple_monitor_loop (W H : Z) (fuel : nat) (thr : Z) :
  triple W H (fun _ => True) (monitor_loop fuel thr) (fun _ => True).
Proof.
  induction fuel as [|fuel IH]; cbn [monitor_loop].
  - apply triple_running.
  - eapply triple_bind; [|intros _ _; exact IH].
    unfold monitor_iteration.
    eapply triple_bind; [now apply triple_hotkey_quit_pressed|].
    intros pressed _. destruct pressed; [apply triple_raise|].
    eapply triple_bind.
    { unfold get_idle_seconds.
      eapply triple_bind; [now apply triple_query_idle_ms|].
      intros ms _. now apply (triple_ret W H (fun _ => True) _ (fun _ => True)). }
    intros idle_s _. destruct (fge idle_s (IZR thr)).
    + eapply triple_bind; [apply triple_run_saver|].
      intros _ _. now apply triple_sleep.
    + now apply triple_sleep.
Qed.

Lemma triple_monitor (W H : Z) (fuel : nat) (thr : Z) :
  triple W H (fun _ => True) (monitor_idle_and_run fuel thr) (fun _ => True).
Proof.
  unfold monitor_idle_and_run.
  eapply triple_bind; [now apply triple_emit|]. intros _ _.
  apply triple_try_except; [apply triple_monitor_loop|now apply triple_emit].
Qed.

Lemma close_open_session (w : World) :
  display_open w = true ->
  exists ok w',
    xc_close w = (Done tt, w')
    /\ display_open w' = false
    /\ trace w' = EvClose :: EvUndefineCursor ok :: trace w.
Proof.
  intros Hd. unfold xc_close. rewrite Hd. cbn [negb].
  unfold bind, try_except, x_undefine_cursor, emit, ret.
  destruct (xfail_at w (tick w)); cbn [is_Exception];
    eexists _, _; (split; [reflexivity|]); split; reflexivity.
Qed.

(** X14. [main] releases the display on every way out: started on a closed
    context, it either fails to open the display (OSError, nothing done) or,
    whenever it ends (normal return, quit key, interrupt, failed idle query),
    its last actions are the best-effort cursor restore and the closing of
    the display, and the context is left closed. *)
Theorem main_releases_display (fuel : nat) (minutes : R) (w w' : World)
    (out : outcome Z) :
  display_open w = false ->
  main fuel minutes w = (out, w') ->
  out <> Running ->
  (can_open w = false /\ out = Raised OSError /\ w' = w)
  \/ (can_open w = true /\ display_open w' = false
      /\ exists ok rest, trace w' = EvClose :: EvUndefineCursor ok :: rest).
Proof.
  intros Hd E Hrun. unfold main in E.
  destruct (can_open w) eqn:Hc.
  - right. split; [reflexivity|].
    set (w1 := log EvOpen (set_display true w)) in *.
    assert (Ho : xc_open w = (Done tt, w1))
      by (unfold xc_open; now rewrite Hd, Hc).
    rewrite (bind_done _ _ _ _ _ Ho) in E.
    cbv zeta in E. unfold try_finally in E.
    match type of E with
    | context [match ?body w1 with _ => _ end] =>
        destruct (body w1) as [r w2] eqn:Eb;
        assert (Hd2 : display_open w2 = true)
    end.
    { assert (Ht : triple (screen_width w1) (screen_height w1) (fun _ => True)
                     (run_cursor_screensaver fuel 120 ;;;
                      monitor_idle_and_run fuel (Z.max 1 (py_int (minutes * 60))) ;;;
                      ret 0%Z) (fun _ => True)).
      { eapply triple_bind; [apply triple_run_saver|]. intros _ _.
        eapply triple_bind; [apply triple_monitor|]. intros _ _.
        now apply triple_ret. }
      destruct (Ht w1 r w2 eq_refl eq_refl Eb) as [(Hdo & _) _].
      rewrite Hdo. reflexivity. }
    destruct (close_open_session w2 Hd2) as (ok & w3 & Hcl & Hd3 & Ht3).
    rewrite Hcl in E.
    destruct r as [z|e|]; injection E as <- <-; try contradiction;
      (split; [exact Hd3|]); exists ok, (trace w2); exact Ht3.
  - left. split; [reflexivity|].
    assert (Ho : xc_open w = (Raised OSError, w))
      by (unfold xc_open; now rewrite Hd, Hc).
    rewrite (bind_raised _ _ _ _ _ Ho) in E. injection E as <- <-. auto.
Qed.

Lemma main_releases_display_witness :
  display_open (snd (main 1 10 world_closed)) = false
  /\ exists ok rest,
       trace (snd (main 1 10 world_closed))
       = EvClose :: EvUndefineCursor ok :: rest.
Proof.
  destruct (main_releases_display 1 10 world_closed (snd (main 1 10 world_closed))
              (fst (main 1 10 world_closed)))
    as [(H & _)|(_ & H1 & H2)].
  - reflexivity.
  - apply surjective_pairing.
  - assert (E : fst (main 1 10 world_closed) = Raised (SystemExit 0))
      by reflexivity.
    rewrite E. discriminate.
  - discriminate H.
  - split; assumption.
Defined.

(** ** The monitor's loop *)

Lemma monitor_loop_never_returns (fuel : nat) (thr : Z) (w w' : World)
    (out : outcome unit) :
  monitor_loop fuel thr w = (out, w') -> out <> Done tt.
Proof.
  revert w. induction fuel as [|fuel IH]; intros w; cbn [monitor_loop].
  - intros [= <- <-]. discriminate.
  - unfold bind at 1.
    destruct (monitor_iteration fuel thr w) as [[u|e|] w1].
    + apply IH.
    + intros [= <- <-]. discriminate.
    + intros [= <- <-]. discriminate.
Qed.

(** X15. monitor_idle_and_run never lets a KeyboardInterrupt out, and the
    only way it returns normally is through the interrupt handler, whose
    message is then the last thing it did; a quit key leaves it as
    SystemExit. *)
Theorem monitor_returns_only_on_interrupt (fuel : nat) (thr : Z) (w w' : World)
    (out : outcome unit) :
  monitor_idle_and_run fuel thr w = (out, w') ->
  out <> Raised KeyboardInterrupt
  /\ (out = Done tt -> exists rest, trace w' = EvPrintExiting :: rest).
Proof.
  unfold monitor_idle_and_run. unfold bind at 1. unfold emit at 1.
  unfold try_except.
  destruct (monitor_loop fuel thr (log (EvPrintArmed thr) w)) as [r w1] eqn:El.
  pose proof (monitor_loop_never_returns _ _ _ _ _ El) as Hnr.
  destruct r as [[]|e|].
  - contradiction.
  - destruct e; cbn [is_KeyboardInterrupt]; unfold emit; intros [= <- <-];
      (split; [discriminate|]); try discriminate.
    intros _. now exists (trace w1).
  - intros [= <- <-]. split; discriminate.
Qed.

Lemma monitor_returns_only_on_interrupt_witness :
  fst (monitor_idle_and_run 3 600 world_busy) <> Raised KeyboardInterrupt.
Proof.
  destruct (monitor_returns_only_on_interrupt 3 600 world_busy
              (snd (monitor_idle_and_run 3 600 world_busy))
              (fst (monitor_idle_and_run 3 600 world_busy))
              (surjective_pairing _)) as [H _].
  exact H.
Defined.

(** X16. A pass of the monitor's loop that reads an idle time of at least the
    threshold (in seconds) enters the animation in that same pass, directly
    after the idle query. *)
Theorem monitor_starts_animation (fuel : nat) (thr ms : Z) (w : World) :
  display_open w = true ->
  hotkey_at w (tick w) = false ->
  idle_at w (S (tick w)) = Some ms ->
  IZR thr <= IZR ms / 1000 ->
  exists evs,
    trace (snd (monitor_iteration fuel thr w))
    = evs ++ EvEnterSaver :: EvQueryIdle ms :: EvHotkey false :: trace w.
Proof.
  intros Hd Hk Hi Hthr.
  set (w1 := log (EvHotkey false) (bump w)).
  set (w2 := log (EvQueryIdle ms) (bump w1)).
  assert (H1 : hotkey_quit_pressed w = (Done false, w1))
    by (rewrite hotkey_step, Hd, Hk; reflexivity).
  assert (H2 : get_idle_seconds w1 = (Done (IZR ms / 1000), w2)).
  { rewrite idle_seconds_step.
    change (display_open w1) with (display_open w).
    change (idle_at w1 (tick w1)) with (idle_at w (S (tick w))).
    now rewrite Hd, Hi. }
  unfold monitor_iteration.
  rewrite (bind_done _ _ _ _ _ H1), (bind_done _ _ _ _ _ H2).
  apply fge_spec in Hthr. rewrite Hthr.
  destruct (run_cursor_screensaver fuel 120 w2) as [r w3] eqn:Er.
  destruct (run_saver_trace fuel 120 w2 w3 r Er) as (_ & _ & _ & evs & Ht & _).
  change (trace w2) with (EvQueryIdle ms :: EvHotkey false :: trace w) in Ht.
  destruct r as [u|e|].
  - rewrite (bind_done _ _ _ _ _ Er). rewrite sleep_trace, Ht.
    now exists (EvSleep (25 / 100) :: evs).
  - rewrite (bind_raised _ _ _ _ _ Er). cbn [snd]. now exists evs.
  - rewrite (bind_running _ _ _ _ Er). cbn [snd]. now exists evs.
Qed.

Lemma monitor_starts_animation_witness :
  exists evs,
    trace (snd (monitor_iteration 2 600 world_idle))
    = evs ++ EvEnterSaver :: EvQueryIdle 700000 :: EvHotkey false
        :: trace world_idle.
Proof.
  apply monitor_starts_animation; try reflexivity. lra.
Defined.

(** ** The idle threshold *)








(** ** The cursor override of one animation burst *)

(** X18. The arrow-cursor override is scoped to the burst.  On an open
    session a call of run_cursor_screensaver that ends either failed at its
    first idle query, before touching the cursor, or forced the arrow cursor
    and made the restoring X call as its very last action. *)
Theorem saver_cursor_scoped (fuel : nat) (fps : R) (w w' : World)
    (out : outcome unit) :
  display_open w = true ->
  run_cursor_screensaver fuel fps w = (out, w') ->
  out <> Running ->
  (idle_at w (tick w) = None /\ out = Raised OSError
   /\ trace w' = EvQueryIdleFailed :: EvEnterSaver :: trace w)
  \/ (exists ok rest,
         trace w' = EvUndefineCursor ok :: rest /\ In EvDefineCursor rest).
Proof.
  intros Hd E Hrun. unfold run_cursor_screensaver in E.
  set (w0 := log EvEnterSaver w) in *.
  assert (H0 : emit EvEnterSaver w = (Done tt, w0)) by reflexivity.
  rewrite (bind_done _ _ _ _ _ H0) in E. unfold saver_body in E.
  destruct (idle_at w (tick w)) as [ms|] eqn:Hi.
  - right.
    set (w1 := log (EvQueryIdle ms) (bump w0)) in *.
    assert (H1 : query_idle_ms w0 = (Done ms, w1)).
    { rewrite query_idle_step.
      change (display_open w0) with (display_open w).
      change (idle_at w0 (tick w0)) with (idle_at w (tick w)).
      now rewrite Hd, Hi. }
    assert (Hd1 : display_open w1 = true) by exact Hd.
    assert (H2 : get_virtual_bounds w1
                 = (Done (screen_width w1, screen_height w1), w1))
      by (unfold get_virtual_bounds, bind, assert_display; now rewrite Hd1).
    assert (H3 : get_cursor_pos w1 = (Done (pointer w1), w1))
      by (unfold get_cursor_pos, bind, assert_display; now rewrite Hd1).
    set (w2 := log EvDefineCursor w1) in *.
    assert (H4 : force_arrow_cursor w1 = (Done tt, w2))
      by (unfold force_arrow_cursor, bind, assert_display, emit; now rewrite Hd1).
    rewrite (bind_done _ _ _ _ _ H1), (bind_done _ _ _ _ _ H2) in E.
    cbn [fst snd] in E.
    rewrite (bind_done _ _ _ _ _ H3), (bind_done _ _ _ _ _ H4) in E.
    unfold bind at 1 in E. unfold lift_rng at 1 in E.
    unfold bind at 1 in E. unfold lift_rng at 1 in E. cbv zeta in E.
    unfold bind at 1 in E. unfold perf_counter at 1 in E.
    match type of E with
    | guarded_animation _ _ _ _ ?x = _ => set (w5 := x) in *
    end.
    assert (Ht5 : trace w5 = EvDefineCursor :: trace w1) by reflexivity.
    assert (Hd5 : display_open w5 = true) by exact Hd.
    unfold guarded_animation, try_finally in E.
    match type of E with
    | context [animate ?f ?b ?d ?s w5] =>
        destruct (animate f b d s w5) as [r w6] eqn:Ea;
        destruct (triple_animate (screen_width w5) (screen_height w5) b f d s
                    w5 r w6 eq_refl eq_refl Ea)
          as [(Hd6 & _ & _ & evs & Ht6 & _) _]
    end.
    rewrite Hd5 in Hd6.
    destruct (restore_cursor_open w6 Hd6) as [ok Hr].
    assert (Hin : In EvDefineCursor (trace w6)).
    { rewrite Ht6, Ht5. apply in_or_app. right. now left. }
    destruct r as [u|e|].
    + rewrite Hr in E. exists ok, (trace w6).
      destruct ok; injection E as <- <-; split; auto.
    + rewrite Hr in E. exists ok, (trace w6).
      destruct ok; injection E as <- <-; split; auto.
    + injection E as <- <-. contradiction.
  - left. split; [reflexivity|].
    assert (H1 : query_idle_ms w0
                 = (Raised OSError, log EvQueryIdleFailed (bump w0))).
    { rewrite query_idle_step.
      change (display_open w0) with (display_open w).
      change (idle_at w0 (tick w0)) with (idle_at w (tick w)).
      now rewrite Hd, Hi. }
    rewrite (bind_raised _ _ _ _ _ H1) in E. injection E as <- <-.
    split; reflexivity.
Qed.

Lemma saver_cursor_scoped_witness :
  exists ok rest,
    trace (snd (run_cursor_screensaver 1 120 world_quit))
    = EvUndefineCursor ok :: rest
    /\ In EvDefineCursor rest.
Proof.
  destruct (saver_cursor_scoped 1 120 world_quit
              (snd (run_cursor_screensaver 1 120 world_quit))
              (fst (run_cursor_screensaver 1 120 world_quit)))
    as [(H & _)|H].
  - reflexivity.
  - apply surjective_pairing.
  - assert (E : fst (run_cursor_screensaver 1 120 world_quit)
                = Raised (SystemExit 0)) by reflexivity.
    rewrite E. discriminate.
  - discriminate H.
  - exact H.
Defined.

(** ** Loading the X libraries *)

(** X19. _load_library returns the first library of the list that loads,
    trying for each name the path found for it or, failing that, the name
    itself; it raises OSError exactly when no entry loads, in particular on
    an empty list. *)
Theorem load_library_first_match (find_library : String.string -> option String.string)
    (cdll : String.string -> option nat) (names : list String.string) :
  (forall lib,
      _load_library find_library cdll names = Done lib
      <-> exists before name after,
            names = before ++ name :: after
            /\ cdll (library_path find_library name) = Some lib
            /\ Forall (fun n => cdll (library_path find_library n) = None) before)
  /\ (_load_library find_library cdll names = Raised OSError
      <-> Forall (fun n => cdll (library_path find_library n) = None) names)
  /\ _load_library find_library cdll names <> Running.
Proof.
  induction names as [|name rest (IH1 & IH2 & IH3)]; cbn [_load_library].
  - split; [|split].
    + intros lib. split; [discriminate|].
      intros (before & n & after & Hn & _). now destruct before.
    + split; [constructor|reflexivity].
    + discriminate.
  - destruct (cdll (library_path find_library name)) as [lib0|] eqn:Ec.
    + split; [|split].
      * intros lib. split.
        -- intros [= <-]. exists [], name, rest. auto.
        -- intros (before & n & after & Hn & Hl & Hb).
           destruct before as [|b0 before]; cbn in Hn; injection Hn as <- _.
           ++ congruence.
           ++ inversion Hb; congruence.
      * split; [discriminate|]. intros Hall. inversion Hall; congruence.
      * discriminate.
    + split; [|split].
      * intros lib. rewrite IH1. split.
        -- intros (before & n & after & -> & Hl & Hb).
           exists (name :: before), n, after. auto.
        -- intros (before & n & after & Hn & Hl & Hb).
           destruct before as [|b0 before]; cbn in Hn; injection Hn as <- ->.
           ++ congruence.
           ++ inversion Hb; subst. exists before, n, after. auto.
      * rewrite IH2. split; [now constructor|]. intros Hall. now inversion Hall.
      * exact IH3.
Qed.

(** ** The quit keys *)

Lemma set_add_in (k x : Z) (s : list Z) : In x (set_add k s) <-> x = k \/ In x s.
Proof.
  unfold set_add. destruct (existsb (Z.eqb k) s) eqn:E.
  - apply existsb_exists in E. destruct E as (y & Hy & Hk).
    apply Z.eqb_eq in Hk. subst y. split; [auto|]. intros [->|]; auto.
  - rewrite in_app_iff. cbn [In]. split.
    + intros [Hx|[Hx|[]]]; auto.
    + intros [->|Hx]; auto.
Qed.

Lemma set_add_nodup (k : Z) (s : list Z) : NoDup s -> NoDup (set_add k s).
Proof.
  intros Hs. unfold set_add. destruct (existsb (Z.eqb k) s) eqn:E; [exact Hs|].
  apply NoDup_app; [exact Hs|repeat constructor; auto|].
  intros x Hx [Hk|[]]. subst x.
  assert (existsb (Z.eqb k) s = true) by
    (apply existsb_exists; exists k; split; [exact Hx|apply Z.eqb_refl]).
  congruence.
Qed.

Lemma add_quit_keycodes_spec (sym : String.string -> Z) (code : Z -> Z)
    (names : list String.string) (acc : list Z) (k : Z) :
  In k (add_quit_keycodes sym code names acc)
  <-> In k acc
      \/ (k <> 0%Z
          /\ exists name,
               In name names /\ sym name <> 0%Z /\ code (sym name) = k).
Proof.
  revert acc. induction names as [|name rest IH]; intros acc;
    cbn [add_quit_keycodes].
  - split; [auto|]. intros [H|(_ & n & [] & _)]. exact H.
  - rewrite IH. destruct (sym name =? 0)%Z eqn:Es.
    + apply Z.eqb_eq in Es. split.
      * intros [H|(Hk & n & Hn & Hs & Hc)]; [now left|right].
        split; [exact Hk|]. exists n. split; [now right|auto].
      * intros [H|(Hk & n & [<-|Hn] & Hs & Hc)]; [now left|congruence|right].
        split; [exact Hk|]. now exists n.
    + apply Z.eqb_neq in Es. cbv zeta.
      destruct (code (sym name) =? 0)%Z eqn:Ec.
      * apply Z.eqb_eq in Ec. split.
        -- intros [H|(Hk & n & Hn & Hs & Hc)]; [now left|right].
           split; [exact Hk|]. exists n. split; [now right|auto].
        -- intros [H|(Hk & n & [<-|Hn] & Hs & Hc)]; [now left|congruence|right].
           split; [exact Hk|]. now exists n.
      * apply Z.eqb_neq in Ec. rewrite set_add_in. split.
        -- intros [[->|H]|(Hk & n & Hn & Hs & Hc)].
           ++ right. split; [exact Ec|]. exists name. split; [now left|auto].
           ++ now left.
           ++ right. split; [exact Hk|]. exists n. split; [now right|auto].
        -- intros [H|(Hk & n & [<-|Hn] & Hs & Hc)]; [left; now right| |right].
           ++ left. left. now symmetry.
           ++ split; [exact Hk|]. now exists n.
Qed.

Lemma add_quit_keycodes_nodup (sym : String.string -> Z) (code : Z -> Z)
    (names : list String.string) (acc : list Z) :
  NoDup acc -> NoDup (add_quit_keycodes sym code names acc).
Proof.
  revert acc. induction names as [|name rest IH]; intros acc Hacc;
    cbn [add_quit_keycodes]; [exact Hacc|].
  apply IH. destruct (sym name =? 0)%Z; [exact Hacc|]. cbv zeta.
  destruct (code (sym name) =? 0)%Z; [exact Hacc|]. now apply set_add_nodup.
Qed.

(** X20. The set of quit keycodes that [open] prepares holds exactly the
    non-zero keycodes of those of the two key names (q and Cyrillic_shorti)
    that have a keysym: it never contains keycode 0, holds no keycode twice,
    and has at most two members. *)
Theorem quit_keycodes_exact (XStringToKeysym : String.string -> Z)
    (XKeysymToKeycode : Z -> Z) :
  let quit := quit_keycodes XStringToKeysym XKeysymToKeycode in
  (forall k,
      In k quit
      <-> k <> 0%Z
          /\ exists name,
               (name = "q"%string \/ name = "Cyrillic_shorti"%string)
               /\ XStringToKeysym name <> 0%Z
               /\ XKeysymToKeycode (XStringToKeysym name) = k)
  /\ NoDup quit
  /\ (length quit <= 2)%nat.
Proof.
  cbv zeta. unfold quit_keycodes. split; [|split].
  - intros k. rewrite add_quit_keycodes_spec. unfold quit_key_names. cbn [In].
    split.
    + intros [[]|(Hk & n & [<-|[<-|[]]] & Hs & Hc)];
        (split; [exact Hk|]); eexists; (split; [|split; eauto]); auto.
    + intros (Hk & n & [->| ->] & Hs & Hc); right;
        (split; [exact Hk|]); eexists; (split; [|split; eauto]); auto.
  - apply add_quit_keycodes_nodup. constructor.
  - unfold quit_key_names. cbn [add_quit_keycodes].
    repeat match goal with
      | |- context [if ?c then _ else _] => destruct c
      end; cbv zeta; cbn [length]; try lia;
      unfold set_add;
      repeat match goal with
        | |- context [if ?c then _ else _] => destruct c
        end; cbn [length app]; lia.
Qed.

(** ** The pending X events *)

Lemma scan_pending_spec (quit : list Z) (pending : list XEvent) (pressed : bool) :
  snd (scan_pending quit pending pressed) = []
  /\ (fst (scan_pending quit pending pressed) = true
      <-> pressed = true
          \/ exists ev,
               In ev pending /\ ev_type ev = KeyPress
               /\ In (ev_keycode ev) quit).
Proof.
  revert pressed. induction pending as [|ev rest IH]; intros pressed;
    cbn [scan_pending].
  - split; [reflexivity|]. cbn [fst]. split; [auto|].
    intros [H|(e & [] & _)]. exact H.
  - destruct (IH (if (ev_type ev =? KeyPress)%Z
                  then if existsb (Z.eqb (ev_keycode ev)) quit then true
                       else pressed
                  else pressed)) as [Hq Hf].
    split; [exact Hq|]. rewrite Hf. clear Hf Hq IH.
    destruct (ev_type ev =? KeyPress)%Z eqn:Et.
    + apply Z.eqb_eq in Et.
      destruct (existsb (Z.eqb (ev_keycode ev)) quit) eqn:Ek.
      * apply existsb_exists in Ek. destruct Ek as (k & Hk & Hkk).
        apply Z.eqb_eq in Hkk. subst k.
        split; [|auto]. intros _. right. exists ev. split; [now left|auto].
      * split.
        -- intros [H|(e & He & Ht & Hk)]; [now left|right].
           exists e. split; [now right|auto].
        -- intros [H|(e & [<-|He] & Ht & Hk)]; [now left| |right].
           ++ assert (existsb (Z.eqb (ev_keycode ev)) quit = true).
              { apply existsb_exists. exists (ev_keycode ev).
                split; [exact Hk|apply Z.eqb_refl]. }
              congruence.
           ++ now exists e.
    + apply Z.eqb_neq in Et. split.
      * intros [H|(e & He & Ht & Hk)]; [now left|right].
        exists e. split; [now right|auto].
      * intros [H|(e & [<-|He] & Ht & Hk)]; [now left|contradiction|right].
        now exists e.
Qed.

(** X21. hotkey_quit_pressed drains the whole queue of pending X events and
    reports a quit exactly when one of them is a key press whose keycode is a
    quit keycode; events of other types and presses of other keys are
    consumed without effect, and an empty queue reports no quit. *)
Theorem pending_quit_spec (quit : list Z) (pending : list XEvent) :
  snd (pending_quit quit pending) = []
  /\ (fst (pending_quit quit pending) = true
      <-> exists ev,
            In ev pending /\ ev_type ev = KeyPress /\ In (ev_keycode ev) quit)
  /\ fst (pending_quit quit []) = false.
Proof.
  unfold pending_quit.
  destruct (scan_pending_spec quit pending false) as [Hq Hf].
  split; [exact Hq|]. split; [|reflexivity].
  rewrite Hf. split; [|auto]. intros [H|H]; [discriminate|exact H].
Qed.
